(** * aio_pika.robust_channel: the recovery layer of a channel

    A shallow embedding of [src/aio_pika/robust_channel.py].  The class
    [RobustChannel] is a record of its attributes; each coroutine is a
    computation in a state-and-exception monad over a world that holds the
    [asyncio] futures, the pending-operation registries and the trace of
    calls made to the collaborators (the base [Channel], the broker, the
    entities' recovery hooks).  Collaborator calls are answered by an
    environment that sees the whole trace so far. *)

From Stdlib Require Import ZArith.
From stdpp Require Import base option list strings.

Local Open Scope Z_scope.

(** ** Python values *)

(** The exceptions this module raises or lets through. *)
Inductive Exn :=
| ConnectionError (msg : string)
| NotImplementedError (msg : string)
| AttributeError (msg : string)
| CancelledError
| InvalidStateError
| BrokerError (code : nat).

(** The result of running a coroutine: it returns, raises, or never
    resumes from an [await]. *)
Inductive Outcome (A : Type) :=
| Ret (a : A)
| Raise (e : Exn)
| Stall.
Arguments Ret {A} a.
Arguments Raise {A} e.
Arguments Stall {A}.

(** How an awaited collaborator call ended, as recorded in the trace. *)
Inductive Status :=
| Completed
| Failed (e : Exn)
| Stalled.

Definition status_of {A} (r : Outcome A) : Status :=
  match r with
  | Ret _ => Completed
  | Raise e => Failed e
  | Stall => Stalled
  end.

(** An [asyncio.Future]. *)
Inductive FutState :=
| FutPending
| FutResult
| FutException (e : Exn)
| FutCancelled.

(** [Future.done()] *)
Definition done (s : FutState) : bool :=
  match s with
  | FutPending => false
  | _ => true
  end.

(** Entities, as far as this module looks at them: an object identity and
    the name the entity has on the broker once its declare completed. *)
Record Exchange := { exchange_id : nat; exchange_name : string }.
Record Queue := { queue_id : nat; queue_name : string }.

Inductive ExchangeType := DIRECT | FANOUT | TOPIC | HEADERS.

(** The keyword arguments the declare and delete methods pass through. *)
Record ExchangeArgs := {
  ex_type : ExchangeType;
  ex_durable : option bool;
  ex_auto_delete : bool;
  ex_internal : bool;
  ex_passive : bool;
  ex_arguments : option (list (string * string));
  ex_timeout : option Z }.

Record QueueArgs := {
  qu_durable : option bool;
  qu_exclusive : bool;
  qu_passive : bool;
  qu_auto_delete : bool;
  qu_arguments : option (list (string * string));
  qu_timeout : option Z }.

Record ExchangeDeleteArgs := {
  xd_timeout : option Z;
  xd_if_unused : bool;
  xd_nowait : bool }.

Record QueueDeleteArgs := {
  qd_timeout : option Z;
  qd_if_unused : bool;
  qd_if_empty : bool;
  qd_nowait : bool }.

(** ** Python dictionaries

    A [dict] keeps its keys in insertion order; assigning to a key that is
    present replaces the value where it stands.  The replay loops iterate
    over [values()], so the order is part of the model. *)
Section dict.
Context {K V : Type} `{EqDecision K}.

(** [d.get(k)] *)
Fixpoint dict_get (k : K) (d : list (K * V)) : option V :=
  match d with
  | [] => None
  | (k', v) :: d' => if decide (k = k') then Some v else dict_get k d'
  end.

(** [d[k] = v] *)
Fixpoint dict_set (k : K) (v : V) (d : list (K * V)) : list (K * V) :=
  match d with
  | [] => [(k, v)]
  | (k', v') :: d' =>
      if decide (k = k') then (k, v) :: d' else (k', v') :: dict_set k v d'
  end.

(** [d.pop(k, None)], the popped value dropped *)
Fixpoint dict_pop (k : K) (d : list (K * V)) : list (K * V) :=
  match d with
  | [] => []
  | (k', v') :: d' =>
      if decide (k = k') then dict_pop k d' else (k', v') :: dict_pop k d'
  end.

(** [d.values()] *)
Definition dict_values (d : list (K * V)) : list V := map snd d.

(** [d.keys()] *)
Definition dict_keys (d : list (K * V)) : list K := map fst d.
End dict.

(** ** The channel and its world *)

(** A pending-operation registry ([FutureStore]): the parent it was derived
    from and the futures it tracks. *)
Record Registry := { reg_parent : option nat; reg_members : list nat }.

(** The attributes of a [RobustChannel].  Futures and registries are
    objects shared with other code, so the channel holds references
    (indices into the world's heaps). *)
Record RobustChannel := {
  _futures : nat;
  _closing : nat;
  _connection : nat;
  _channel_number : option Z;
  _channel : option nat;
  _closed : bool;
  _exchanges : list (string * Exchange);
  _queues : list (option string * Queue);
  _qos : Z * Z }.

(** Calls that leave this module, in the order they are made. *)
Inductive Event :=
| EvGetChild (parent child : nat)
| EvCreateFuture (fut : nat)
| EvSetException (fut : nat) (e : Exn)
| EvRejectAll (reg : nat) (e : Exn)
| EvInitialize (s : Status)
| EvSetQos (prefetch_count prefetch_size : Z) (timeout : option Z) (s : Status)
| EvHandleClose (handle : nat)
| EvAwaitClosing (fut : nat) (s : Status)
| EvDeclareExchange (name : string) (a : ExchangeArgs) (s : Status)
| EvExchangeDelete (name : string) (a : ExchangeDeleteArgs) (s : Status)
| EvDeclareQueue (name : option string) (a : QueueArgs) (s : Status)
| EvQueueDelete (name : string) (a : QueueDeleteArgs) (s : Status)
| EvExchangeOnReconnect (x : Exchange) (s : Status)
| EvQueueOnReconnect (q : Queue) (s : Status).

Record World := {
  futures : list FutState;
  registries : list Registry;
  trace : list Event }.

Definition State : Type := World * RobustChannel.

(** The collaborators: how each call into the base class, the broker or an
    entity ends, given everything that happened before it. *)
Record Env := {
  base_initialize : list Event -> Outcome nat;
  base_set_qos : list Event -> Z -> Z -> option Z -> Outcome unit;
  base_declare_exchange :
    list Event -> string -> ExchangeArgs -> Outcome Exchange;
  base_exchange_delete :
    list Event -> string -> ExchangeDeleteArgs -> Outcome nat;
  base_declare_queue :
    list Event -> option string -> QueueArgs -> Outcome Queue;
  base_queue_delete :
    list Event -> string -> QueueDeleteArgs -> Outcome nat;
  exchange_on_reconnect : list Event -> Exchange -> Outcome unit;
  queue_on_reconnect : list Event -> Queue -> Outcome unit;
  closing_resolution : list Event -> nat -> Outcome unit;
  ensure_channel_is_open : State -> option Exn }.

(** ** The monad of coroutines *)

Definition M (A : Type) : Type := State -> Outcome A * State.

Definition ret {A} (a : A) : M A := fun st => (Ret a, st).

Definition bind {A B} (m : M A) (k : A -> M B) : M B :=
  fun st =>
    match m st with
    | (Ret a, st') => k a st'
    | (Raise e, st') => (Raise e, st')
    | (Stall, st') => (Stall, st')
    end.

Definition raise {A} (e : Exn) : M A := fun st => (Raise e, st).

Definition gets {A} (f : State -> A) : M A := fun st => (Ret (f st), st).

Definition modify (f : State -> State) : M unit := fun st => (Ret tt, f st).

Declare Scope coro_scope.
Delimit Scope coro_scope with coro.
Notation "x <- c1 ;; c2" := (bind c1 (fun x => c2))
  (at level 100, c1 at next level, right associativity) : coro_scope.
Notation "c1 ;; c2" := (bind c1 (fun _ => c2))
  (at level 100, right associativity) : coro_scope.
Local Open Scope coro_scope.

(** [for x in xs: await f(x)] *)
Fixpoint for_each {A} (xs : list A) (f : A -> M unit) : M unit :=
  match xs with
  | [] => ret tt
  | x :: xs' => f x ;; for_each xs' f
  end.

(** ** State updates *)

Definition emit (ev : Event) (w : World) : World :=
  {| futures := futures w; registries := registries w;
     trace := trace w ++ [ev] |}.

Definition set_futures_heap (h : list FutState) (w : World) : World :=
  {| futures := h; registries := registries w; trace := trace w |}.

Definition set_registries (r : list Registry) (w : World) : World :=
  {| futures := futures w; registries := r; trace := trace w |}.

Definition with_closing (f : nat) (c : RobustChannel) : RobustChannel :=
  {| _futures := _futures c; _closing := f; _connection := _connection c;
     _channel_number := _channel_number c; _channel := _channel c;
     _closed := _closed c; _exchanges := _exchanges c; _queues := _queues c;
     _qos := _qos c |}.

Definition with_connection (n : nat) (c : RobustChannel) : RobustChannel :=
  {| _futures := _futures c; _closing := _closing c; _connection := n;
     _channel_number := _channel_number c; _channel := _channel c;
     _closed := _closed c; _exchanges := _exchanges c; _queues := _queues c;
     _qos := _qos c |}.

Definition with_channel_number (n : option Z) (c : RobustChannel)
  : RobustChannel :=
  {| _futures := _futures c; _closing := _closing c;
     _connection := _connection c;
     _channel_number := n; _channel := _channel c;
     _closed := _closed c; _exchanges := _exchanges c; _queues := _queues c;
     _qos := _qos c |}.

Definition with_channel (h : option nat) (c : RobustChannel) : RobustChannel :=
  {| _futures := _futures c; _closing := _closing c;
     _connection := _connection c;
     _channel_number := _channel_number c; _channel := h;
     _closed := _closed c; _exchanges := _exchanges c; _queues := _queues c;
     _qos := _qos c |}.

Definition with_closed (b : bool) (c : RobustChannel) : RobustChannel :=
  {| _futures := _futures c; _closing := _closing c;
     _connection := _connection c;
     _channel_number := _channel_number c; _channel := _channel c;
     _closed := b; _exchanges := _exchanges c; _queues := _queues c;
     _qos := _qos c |}.

Definition with_exchanges (d : list (string * Exchange)) (c : RobustChannel)
  : RobustChannel :=
  {| _futures := _futures c; _closing := _closing c;
     _connection := _connection c;
     _channel_number := _channel_number c; _channel := _channel c;
     _closed := _closed c; _exchanges := d; _queues := _queues c;
     _qos := _qos c |}.

Definition with_queues (d : list (option string * Queue)) (c : RobustChannel)
  : RobustChannel :=
  {| _futures := _futures c; _closing := _closing c;
     _connection := _connection c;
     _channel_number := _channel_number c; _channel := _channel c;
     _closed := _closed c; _exchanges := _exchanges c; _queues := d;
     _qos := _qos c |}.

Definition with_qos (q : Z * Z) (c : RobustChannel) : RobustChannel :=
  {| _futures := _futures c; _closing := _closing c;
     _connection := _connection c;
     _channel_number := _channel_number c; _channel := _channel c;
     _closed := _closed c; _exchanges := _exchanges c; _queues := _queues c;
     _qos := q |}.

Definition on_world (f : World -> World) : M unit :=
  modify (fun st => (f (fst st), snd st)).

Definition on_self (f : RobustChannel -> RobustChannel) : M unit :=
  modify (fun st => (fst st, f (snd st))).

Definition self {A} (f : RobustChannel -> A) : M A :=
  gets (fun st => f (snd st)).

(** ** Futures and registries *)

(** [loop.create_future()]: a new pending future. *)
Definition create_future : M nat :=
  fun st =>
    let f := length (futures (fst st)) in
    (Ret f,
     (emit (EvCreateFuture f)
        (set_futures_heap (futures (fst st) ++ [FutPending]) (fst st)),
      snd st)).

(** [fut.done()]; a reference outside the heap is to no future at all and
    is reported as not done. *)
Definition future_done (f : nat) : M bool :=
  gets (fun st =>
          match futures (fst st) !! f with
          | Some s => done s
          | None => false
          end).

(** [fut.set_exception(exc)]; [asyncio] refuses it on a future that is
    done. *)
Definition set_exception (f : nat) (e : Exn) : M unit :=
  fun st =>
    match futures (fst st) !! f with
    | Some FutPending | None =>
        (Ret tt,
         (emit (EvSetException f e)
            (set_futures_heap (<[f := FutException e]> (futures (fst st)))
               (fst st)),
          snd st))
    | Some _ => (Raise InvalidStateError, st)
    end.

(** Modelled from the spec: [FutureStore.get_child] of the absent
    [aio_pika.common], which "produces a registry whose membership is
    disjoint from sibling children but whose lifecycle is bounded by the
    parent": a new registry, tracking nothing yet, that remembers its
    parent. *)
Definition get_child (parent : nat) (w : World) : nat * World :=
  let child := length (registries w) in
  (child,
   emit (EvGetChild parent child)
     (set_registries
        (registries w ++ [{| reg_parent := Some parent; reg_members := [] |}])
        w)).

(** One step of a bulk failure: a future that is still pending gets the
    error, a resolved one is left as it is. *)
Definition reject_future (e : Exn) (h : list FutState) (f : nat)
  : list FutState :=
  match h !! f with
  | Some FutPending => <[f := FutException e]> h
  | _ => h
  end.

(** Modelled from the spec: [FutureStore.reject_all] of the absent
    [aio_pika.common], which "resolves every still-unresolved operation
    currently tracked by this registry (and only this registry) with
    [error], then clears it". *)
Definition reject_all (reg : nat) (e : Exn) (w : World) : World :=
  match registries w !! reg with
  | Some r =>
      emit (EvRejectAll reg e)
        (set_registries
           (<[reg := {| reg_parent := reg_parent r; reg_members := [] |}]>
              (registries w))
           (set_futures_heap (foldl (reject_future e) (futures w)
                                (reg_members r)) w))
  | None => emit (EvRejectAll reg e) w
  end.

(** Modelled from the spec: the registration of an outstanding broker
    request, which the absent base channel does through the channel's
    registry: a new pending future, tracked by that registry alone. *)
Definition register_pending (reg : nat) (w : World) : nat * World :=
  let f := length (futures w) in
  (f,
   set_registries
     (match registries w !! reg with
      | Some r =>
          <[reg := {| reg_parent := reg_parent r;
                      reg_members := reg_members r ++ [f] |}]> (registries w)
      | None => registries w
      end)
     (set_futures_heap (futures w ++ [FutPending]) w)).

(** Modelled from the spec: the part of the absent base constructor the
    recovery layer relies on, the allocation of the channel's "closing"
    signal. *)
Definition base_closing (w : World) : nat * World :=
  let f := length (futures w) in
  (f, emit (EvCreateFuture f) (set_futures_heap (futures w ++ [FutPending]) w)).

(** [RobustChannel.__init__]: the registry handed to the base class is a
    child of the connection's registry; no handle is open yet. *)
Definition __init__ (connection : nat) (future_store : nat)
    (channel_number : option Z) (w : World) : State :=
  let (child, w1) := get_child future_store w in
  let (closing, w2) := base_closing w1 in
  (w2,
   {| _futures := child; _closing := closing; _connection := connection;
      _channel_number := channel_number; _channel := None;
      _closed := false; _exchanges := []; _queues := []; _qos := (0, 0) |}).

(** ** The coroutines of [RobustChannel] *)

Section robust_channel.
Variable env : Env.

(** An awaited call to a collaborator: the environment answers from the
    trace, and the call is logged with the way it ended. *)
Definition await {A} (ask : list Event -> Outcome A) (ev : Status -> Event)
  : M A :=
  fun st =>
    let r := ask (trace (fst st)) in
    (r, (emit (ev (status_of r)) (fst st), snd st)).

(** [await super().initialize()]: the base class opens a handle on the
    current connection. *)
Definition super_initialize : M nat :=
  h <- await (base_initialize env) EvInitialize ;;
  on_self (with_channel (Some h)) ;;
  ret h.

(** [set_qos], lines 95-106. *)
Definition set_qos (prefetch_count prefetch_size : Z) (all_channels : bool)
    (timeout : option Z) : M unit :=
  if all_channels then
    raise (NotImplementedError "Not available to RobustConnection"%string)
  else
    (on_self (with_qos (prefetch_count, prefetch_size)) ;;
     await (fun t => base_set_qos env t prefetch_count prefetch_size timeout)
       (EvSetQos prefetch_count prefetch_size timeout)).

(** [initialize], lines 83-93. *)
Definition initialize (timeout : option Z) : M nat :=
  result <- super_initialize ;;
  qos <- self _qos ;;
  set_qos (fst qos) (snd qos) false None ;;
  ret result.

(** [await exchange.on_reconnect(self)] and [await queue.on_reconnect(self)] *)
Definition exchange_hook (x : Exchange) : M unit :=
  await (fun t => exchange_on_reconnect env t x) (EvExchangeOnReconnect x).

Definition queue_hook (q : Queue) : M unit :=
  await (fun t => queue_on_reconnect env t q) (EvQueueOnReconnect q).

(** [on_reconnect], lines 64-81. *)
Definition on_reconnect (connection : nat) (channel_number : Z) : M unit :=
  let exc := ConnectionError "Auto Reconnect Error"%string in
  closing <- self _closing ;;
  is_done <- future_done closing ;;
  (if is_done then ret tt else set_exception closing exc) ;;
  fresh <- create_future ;;
  on_self (with_closing fresh) ;;
  futs <- self _futures ;;
  on_world (reject_all futs exc) ;;
  on_self (with_connection connection) ;;
  on_self (with_channel_number (Some channel_number)) ;;
  initialize None ;;
  exchanges <- self _exchanges ;;
  for_each (dict_values exchanges) exchange_hook ;;
  queues <- self _queues ;;
  for_each (dict_values queues) queue_hook.

(** [await self.closing]: the value of a future that is done, else the
    way the broker's answer to the close request resolves it. *)
Definition await_closing : M unit :=
  fun st =>
    let f := _closing (snd st) in
    match futures (fst st) !! f with
    | Some FutResult => (Ret tt, st)
    | Some (FutException e) => (Raise e, st)
    | Some FutCancelled => (Raise CancelledError, st)
    | Some FutPending | None =>
        let r := closing_resolution env (trace (fst st)) f in
        (r,
         (emit (EvAwaitClosing f (status_of r))
            (set_futures_heap
               (<[f := match r with
                       | Ret _ => FutResult
                       | Raise e => FutException e
                       | Stall => FutPending
                       end]> (futures (fst st)))
               (fst st)),
          snd st))
    end.

(** The body of [close], lines 110-117.  The write lock is free when a
    coroutine starts and [async with] releases it on every exit, so it
    leaves no mark on the state. *)
Definition close_body : M unit :=
  closed <- self _closed ;;
  if closed then ret tt
  else
    (on_self (with_closed true) ;;
     handle <- self _channel ;;
     match handle with
     | Some h => on_world (emit (EvHandleClose h))
     | None =>
         raise (AttributeError "'NoneType' object has no attribute 'close'"%string)
     end ;;
     await_closing ;;
     on_self (with_channel None)).

(** [close] under its decorator [BaseChannel._ensure_channel_is_open],
    line 108: the decorator is defined outside this module, so what it
    checks is the environment's; when it objects the body does not
    run. *)
Definition close : M unit :=
  fun st =>
    match ensure_channel_is_open env st with
    | Some e => (Raise e, st)
    | None => close_body st
    end.

(** [declare_exchange], lines 119-135. *)
Definition declare_exchange (name : string) (a : ExchangeArgs)
    (robust : bool) : M Exchange :=
  exchange <- await (fun t => base_declare_exchange env t name a)
                (EvDeclareExchange name a) ;;
  (if negb (ex_internal a) && robust then
     on_self (fun c => with_exchanges (dict_set name exchange (_exchanges c)) c)
   else ret tt) ;;
  ret exchange.

(** [exchange_delete], lines 137-146. *)
Definition exchange_delete (exchange_name : string)
    (a : ExchangeDeleteArgs) : M nat :=
  result <- await (fun t => base_exchange_delete env t exchange_name a)
              (EvExchangeDelete exchange_name a) ;;
  on_self (fun c => with_exchanges (dict_pop exchange_name (_exchanges c)) c) ;;
  ret result.

(** [declare_queue], lines 148-163: the key is the [name] argument. *)
Definition declare_queue (name : option string) (a : QueueArgs)
    (robust : bool) : M Queue :=
  queue <- await (fun t => base_declare_queue env t name a)
             (EvDeclareQueue name a) ;;
  (if robust then
     on_self (fun c => with_queues (dict_set name queue (_queues c)) c)
   else ret tt) ;;
  ret queue.

(** [queue_delete], lines 165-174. *)
Definition queue_delete (queue_name : string) (a : QueueDeleteArgs)
    : M nat :=
  result <- await (fun t => base_queue_delete env t queue_name a)
              (EvQueueDelete queue_name a) ;;
  on_self (fun c => with_queues (dict_pop (Some queue_name) (_queues c)) c) ;;
  ret result.
End robust_channel.

(** ** Runs of a channel *)

(** What an application, the connection manager or the base class can do
    with a channel. *)
Inductive Op :=
| OpOnReconnect (connection : nat) (channel_number : Z)
| OpInitialize (timeout : option Z)
| OpSetQos (prefetch_count prefetch_size : Z) (all_channels : bool)
    (timeout : option Z)
| OpClose
| OpDeclareExchange (name : string) (a : ExchangeArgs) (robust : bool)
| OpExchangeDelete (name : string) (a : ExchangeDeleteArgs)
| OpDeclareQueue (name : option string) (a : QueueArgs) (robust : bool)
| OpQueueDelete (name : string) (a : QueueDeleteArgs)
| OpRegisterPending.

(** The state an operation leaves behind, whether it returned or raised. *)
Definition step (env : Env) (st : State) (op : Op) : State :=
  match op with
  | OpOnReconnect c n => snd (on_reconnect env c n st)
  | OpInitialize t => snd (initialize env t st)
  | OpSetQos p q a t => snd (set_qos env p q a t st)
  | OpClose => snd (close env st)
  | OpDeclareExchange name a robust => snd (declare_exchange env name a robust st)
  | OpExchangeDelete name a => snd (exchange_delete env name a st)
  | OpDeclareQueue name a robust => snd (declare_queue env name a robust st)
  | OpQueueDelete name a => snd (queue_delete env name a st)
  | OpRegisterPending =>
      (snd (register_pending (_futures (snd st)) (fst st)), snd st)
  end.

Definition run (env : Env) (ops : list Op) (st : State) : State :=
  foldl (step env) st ops.

(** The closing signals a channel holds along a run, the current one
    last. *)
Fixpoint closing_history (env : Env) (ops : list Op) (st : State) : list nat :=
  match ops with
  | [] => [_closing (snd st)]
  | op :: ops' => _closing (snd st) :: closing_history env ops' (step env st op)
  end.

(** A run of [set_qos] calls on one channel, each with its own timeout. *)
Definition set_qos_calls (l : list (Z * Z * option Z)) : list Op :=
  map (fun c => OpSetQos (fst (fst c)) (snd (fst c)) false (snd c)) l.

(** The pair the caller asked for last, the default when there was no
    call. *)
Definition last_requested (l : list (Z * Z * option Z)) : Z * Z :=
  default (0, 0) (last (map fst l)).

(** ** Reading traces *)

(** The events between two states of one run. *)
Definition new_events (before after : State) : list Event :=
  drop (length (trace (fst before))) (trace (fst after)).

Definition reconnect_error : Exn := ConnectionError "Auto Reconnect Error"%string.

(** The calls of lines 65-71 of [on_reconnect]. *)
Definition swap_events (st : State) : list Event :=
  (match futures (fst st) !! _closing (snd st) with
   | Some s =>
       if done s then []
       else [EvSetException (_closing (snd st)) reconnect_error]
   | None => [EvSetException (_closing (snd st)) reconnect_error]
   end)
  ++ [EvCreateFuture (length (futures (fst st)));
      EvRejectAll (_futures (snd st)) reconnect_error].

(** The QoS pairs handed to the base class. *)
Definition qos_applied (t : list Event) : list (Z * Z) :=
  omap (fun ev => match ev with
                  | EvSetQos p q _ _ => Some (p, q)
                  | _ => None
                  end) t.

(** Whether the base class opened a handle. *)
Definition opened (t : list Event) : bool :=
  existsb (fun ev => match ev with
                     | EvInitialize Completed => true
                     | _ => false
                     end) t.

Definition is_init_event (ev : Event) : bool :=
  match ev with
  | EvInitialize _ | EvSetQos _ _ _ _ => true
  | _ => false
  end.

Definition is_exchange_hook (ev : Event) : bool :=
  match ev with
  | EvExchangeOnReconnect _ _ => true
  | _ => false
  end.

Definition is_queue_hook (ev : Event) : bool :=
  match ev with
  | EvQueueOnReconnect _ _ => true
  | _ => false
  end.

(** The trace of a loop that awaits one hook after the other: the hooks of
    the entities in order, each completed before the next is called; a hook
    that fails or stalls is the last one called. *)
Inductive hooks_run {A} (ev : A -> Status -> Event)
  : list A -> list Event -> Outcome unit -> Prop :=
| hooks_end : hooks_run ev [] [] (Ret tt)
| hooks_next x xs evs r :
    hooks_run ev xs evs r ->
    hooks_run ev (x :: xs) (ev x Completed :: evs) r
| hooks_fail x xs e : hooks_run ev (x :: xs) [ev x (Failed e)] (Raise e)
| hooks_stall x xs : hooks_run ev (x :: xs) [ev x Stalled] Stall.

(** What a coroutine does when the call it awaits did not complete. *)
Definition stopped (s : Status) : Outcome unit :=
  match s with
  | Failed e => Raise e
  | _ => Stall
  end.

(** The trace of [initialize] followed by the two replay loops. *)
Inductive replay_run (qos : Z * Z) (xs : list Exchange) (qs : list Queue)
  : list Event -> Outcome unit -> Prop :=
| replay_no_handle s :
    s <> Completed ->
    replay_run qos xs qs [EvInitialize s] (stopped s)
| replay_no_qos s :
    s <> Completed ->
    replay_run qos xs qs
      [EvInitialize Completed; EvSetQos (fst qos) (snd qos) None s]
      (stopped s)
| replay_exchanges xe r :
    r <> Ret tt ->
    hooks_run EvExchangeOnReconnect xs xe r ->
    replay_run qos xs qs
      ([EvInitialize Completed;
        EvSetQos (fst qos) (snd qos) None Completed] ++ xe) r
| replay_queues xe qe r :
    hooks_run EvExchangeOnReconnect xs xe (Ret tt) ->
    hooks_run EvQueueOnReconnect qs qe r ->
    replay_run qos xs qs
      ([EvInitialize Completed;
        EvSetQos (fst qos) (snd qos) None Completed] ++ xe ++ qe) r.

(** The state lines 65-73 of [on_reconnect] leave: the old closing signal
    rejected if it was unresolved, a new one in its place, the channel's
    pending operations failed, the new connection adopted. *)
Definition swapped (connection : nat) (channel_number : Z) (st : State)
  : State :=
  let closing := _closing (snd st) in
  let w1 :=
    match futures (fst st) !! closing with
    | Some s =>
        if done s then fst st
        else emit (EvSetException closing reconnect_error)
               (set_futures_heap
                  (<[closing := FutException reconnect_error]>
                     (futures (fst st))) (fst st))
    | None =>
        emit (EvSetException closing reconnect_error)
          (set_futures_heap
             (<[closing := FutException reconnect_error]> (futures (fst st)))
             (fst st))
    end in
  let fresh := length (futures w1) in
  let w2 :=
    emit (EvCreateFuture fresh)
      (set_futures_heap (futures w1 ++ [FutPending]) w1) in
  (reject_all (_futures (snd st)) reconnect_error w2,
   with_channel_number (Some channel_number)
     (with_connection connection (with_closing fresh (snd st)))).

(** ** Reading a replay *)

(** An entity with a recovery hook. *)
Inductive Entity :=
| AnExchange (x : Exchange)
| AQueue (q : Queue).

(** The order in which [on_reconnect] goes through the remembered
    entities: the exchanges in map order, then the queues in map order. *)
Definition replay_order (c : RobustChannel) : list Entity :=
  map AnExchange (dict_values (_exchanges c))
  ++ map AQueue (dict_values (_queues c)).

Definition hook_called (ev : Event) : option Entity :=
  match ev with
  | EvExchangeOnReconnect x _ => Some (AnExchange x)
  | EvQueueOnReconnect q _ => Some (AQueue q)
  | _ => None
  end.

(** The entities whose hooks a trace calls, in the order of the calls. *)
Definition hooks_called (t : list Event) : list Entity := omap hook_called t.

(** How an awaited call ended; [None] for a call that is not awaited. *)
Definition event_status (ev : Event) : option Status :=
  match ev with
  | EvInitialize s | EvSetQos _ _ _ s | EvAwaitClosing _ s
  | EvDeclareExchange _ _ s | EvExchangeDelete _ _ s
  | EvDeclareQueue _ _ s | EvQueueDelete _ _ s
  | EvExchangeOnReconnect _ s | EvQueueOnReconnect _ s => Some s
  | _ => None
  end.

(** A call after which the coroutine went on. *)
Definition went_on (ev : Event) : bool :=
  match event_status ev with
  | Some Completed | None => true
  | Some _ => false
  end.

(** How far [initialize] and the replay loops of one [on_reconnect] got. *)
Inductive Progress :=
| StoppedAtInitialize (s : Status)
| StoppedAtQos (s : Status)
| StoppedAtExchange (i : nat) (s : Status)
| StoppedAtQueue (j : nat) (s : Status)
| Replayed.

Definition completed_hooks {A} (ev : A -> Status -> Event) (xs : list A)
  : list Event :=
  map (fun x => ev x Completed) xs.

Definition stopping_hook {A} (ev : A -> Status -> Event) (xs : list A)
    (i : nat) (s : Status) : list Event :=
  match xs !! i with
  | Some x => [ev x s]
  | None => []
  end.

(** The calls made up to that point. *)
Definition replay_trace (qos : Z * Z) (xs : list Exchange) (qs : list Queue)
    (p : Progress) : list Event :=
  match p with
  | StoppedAtInitialize s => [EvInitialize s]
  | StoppedAtQos s =>
      [EvInitialize Completed; EvSetQos (fst qos) (snd qos) None s]
  | StoppedAtExchange i s =>
      [EvInitialize Completed; EvSetQos (fst qos) (snd qos) None Completed]
      ++ completed_hooks EvExchangeOnReconnect (take i xs)
      ++ stopping_hook EvExchangeOnReconnect xs i s
  | StoppedAtQueue j s =>
      [EvInitialize Completed; EvSetQos (fst qos) (snd qos) None Completed]
      ++ completed_hooks EvExchangeOnReconnect xs
      ++ completed_hooks EvQueueOnReconnect (take j qs)
      ++ stopping_hook EvQueueOnReconnect qs j s
  | Replayed =>
      [EvInitialize Completed; EvSetQos (fst qos) (snd qos) None Completed]
      ++ completed_hooks EvExchangeOnReconnect xs
      ++ completed_hooks EvQueueOnReconnect qs
  end.

(** What [on_reconnect] then does. *)
Definition progress_outcome (p : Progress) : Outcome unit :=
  match p with
  | StoppedAtInitialize s | StoppedAtQos s
  | StoppedAtExchange _ s | StoppedAtQueue _ s => stopped s
  | Replayed => Ret tt
  end.

(** A replay stops at a call that did not complete, made to an entity that
    is there. *)
Definition progress_ok (xs : list Exchange) (qs : list Queue) (p : Progress)
  : Prop :=
  match p with
  | StoppedAtInitialize s | StoppedAtQos s => s <> Completed
  | StoppedAtExchange i s => s <> Completed /\ (i < length xs)%nat
  | StoppedAtQueue j s => s <> Completed /\ (j < length qs)%nat
  | Replayed => True
  end.

(** ** Reading the heaps *)

(** The futures a registry tracks. *)
Definition pending_in (reg : nat) (w : World) : list nat :=
  match registries w !! reg with
  | Some r => reg_members r
  | None => []
  end.

(** The futures after lines 67-68 of [on_reconnect]. *)
Definition closing_rejected (st : State) : list FutState :=
  match futures (fst st) !! _closing (snd st) with
  | Some s =>
      if done s then futures (fst st)
      else <[_closing (snd st) := FutException reconnect_error]>
             (futures (fst st))
  | None => futures (fst st)
  end.

(** A future that is resolved. *)
Definition resolved (h : list FutState) (f : nat) : Prop :=
  exists s, h !! f = Some s /\ done s = true.

Definition is_close_request (ev : Event) : bool :=
  match ev with
  | EvHandleClose _ => true
  | _ => false
  end.

(** The number of close requests sent to underlying handles. *)
Definition close_requests (t : list Event) : nat :=
  length (List.filter is_close_request t).

(** A coroutine that does not look at the closed flag: with the flag set
    to [b] it does what it does otherwise, and leaves the flag at [b]. *)
Definition ignores_closed {A} (m : M A) : Prop :=
  forall w c b,
    m (w, with_closed b c) =
    (fst (m (w, c)),
     (fst (snd (m (w, c))), with_closed b (snd (snd (m (w, c)))))).

(** ** Reading runs *)

(** Whether a coroutine returned. *)
Definition returned {A} (r : Outcome A) : bool :=
  match r with
  | Ret _ => true
  | _ => false
  end.

(** The QoS pairs a run of operations asks for through calls [set_qos]
    accepts, in the order of the calls. *)
Definition accepted_qos (ops : list Op) : list (Z * Z) :=
  omap (fun op => match op with
                  | OpSetQos p q false _ => Some (p, q)
                  | _ => None
                  end) ops.

(** Operations that declare or delete an entity. *)
Definition touches_maps (op : Op) : bool :=
  match op with
  | OpDeclareExchange _ _ _ | OpExchangeDelete _ _
  | OpDeclareQueue _ _ _ | OpQueueDelete _ _ => true
  | _ => false
  end.

(** The QoS calls handed to the base class, each with its timeout. *)
Definition qos_calls (t : list Event) : list (Z * Z * option Z) :=
  omap (fun ev => match ev with
                  | EvSetQos p q timeout _ => Some (p, q, timeout)
                  | _ => None
                  end) t.

(** ** Sample collaborators *)

(** A broker that accepts everything: handles and entities are numbered
    by the length of the trace, an unnamed queue gets a generated name.
    The open-channel guard lets a call through while the channel's
    closing signal is unresolved and objects once it is resolved. *)
Definition calm : Env := {|
  base_initialize := fun t => Ret (length t);
  base_set_qos := fun _ _ _ _ => Ret tt;
  base_declare_exchange :=
    fun t n _ => Ret {| exchange_id := length t; exchange_name := n |};
  base_exchange_delete := fun _ _ _ => Ret 0%nat;
  base_declare_queue :=
    fun t n _ =>
      Ret {| queue_id := length t; queue_name := default "amq.gen-1"%string n |};
  base_queue_delete := fun _ _ _ => Ret 0%nat;
  exchange_on_reconnect := fun _ _ => Ret tt;
  queue_on_reconnect := fun _ _ => Ret tt;
  closing_resolution := fun _ _ => Ret tt;
  ensure_channel_is_open :=
    fun st =>
      match futures (fst st) !! _closing (snd st) with
      | Some FutPending => None
      | _ => Some (BrokerError 504)
      end |}.

(** A connection's world before any channel exists: the root registry. *)
Definition fresh_world : World :=
  {| futures := [];
     registries := [{| reg_parent := None; reg_members := [] |}];
     trace := [] |}.

Definition plain_exchange : ExchangeArgs :=
  {| ex_type := DIRECT; ex_durable := None; ex_auto_delete := false;
     ex_internal := false; ex_passive := false; ex_arguments := None;
     ex_timeout := None |}.

Definition plain_queue : QueueArgs :=
  {| qu_durable := None; qu_exclusive := false; qu_passive := false;
     qu_auto_delete := false; qu_arguments := None; qu_timeout := None |}.

Definition plain_exchange_delete : ExchangeDeleteArgs :=
  {| xd_timeout := None; xd_if_unused := false; xd_nowait := false |}.

Definition plain_queue_delete : QueueDeleteArgs :=
  {| qd_timeout := None; qd_if_unused := false; qd_if_empty := false;
     qd_nowait := false |}.

(** A channel right after construction on connection 1. *)
Definition new_channel : State := __init__ 1 0 None fresh_world.

(** A broker that accepts everything, and a queue named [jobs] whose
    recovery hook is refused with code 406. *)
Definition stormy : Env := {|
  base_initialize := base_initialize calm;
  base_set_qos := base_set_qos calm;
  base_declare_exchange := base_declare_exchange calm;
  base_exchange_delete := base_exchange_delete calm;
  base_declare_queue := base_declare_queue calm;
  base_queue_delete := base_queue_delete calm;
  exchange_on_reconnect := exchange_on_reconnect calm;
  queue_on_reconnect :=
    fun _ q =>
      if decide (queue_name q = "jobs"%string)
      then Raise (BrokerError 406) else Ret tt;
  closing_resolution := closing_resolution calm;
  ensure_channel_is_open := ensure_channel_is_open calm |}.

(** A channel with an open handle. *)
Definition open_channel : State := snd (initialize calm None new_channel).

(** A channel that remembers an exchange and two queues. *)
Definition busy_channel : State :=
  run calm
    [OpDeclareExchange "orders"%string plain_exchange true;
     OpDeclareQueue (Some "jobs"%string) plain_queue true;
     OpDeclareQueue (Some "mail"%string) plain_queue true]
    new_channel.

(** * Properties *)

(** ** The monad and the loops *)

Lemma world_eta (w : World) :
  {| futures := futures w; registries := registries w; trace := trace w |} = w.
Proof. by destruct w. Qed.

Lemma channel_eta (c : RobustChannel) :
  {| _futures := _futures c; _closing := _closing c;
     _connection := _connection c; _channel_number := _channel_number c;
     _channel := _channel c; _closed := _closed c;
     _exchanges := _exchanges c; _queues := _queues c; _qos := _qos c |} = c.
Proof. by destruct c. Qed.

(** A loop of awaited hooks touches nothing but the trace, which it
    extends by a sequential run of the hooks. *)
Lemma for_each_hooks {A} (ask : list Event -> A -> Outcome unit)
    (ev : A -> Status -> Event) (xs : list A) (st : State) :
  exists evs,
    hooks_run ev xs evs
      (fst (for_each xs (fun x => await (fun t => ask t x) (ev x)) st)) /\
    snd (for_each xs (fun x => await (fun t => ask t x) (ev x)) st) =
      ({| futures := futures (fst st); registries := registries (fst st);
          trace := trace (fst st) ++ evs |}, snd st).
Proof.
  revert st. set (f := fun x => await (fun t => ask t x) (ev x)).
  induction xs as [|x xs IH]; intros [w c]; simpl.
  - exists []. split; [constructor|]. by rewrite app_nil_r, world_eta.
  - unfold bind.
    assert (f x (w, c) =
            (ask (trace w) x, (emit (ev x (status_of (ask (trace w) x))) w, c)))
      as -> by reflexivity.
    destruct (ask (trace w) x) as [[]| e |] eqn:Hask; simpl.
    + destruct (IH (emit (ev x Completed) w, c)) as (evs & Hrun & Hst).
      exists (ev x Completed :: evs). split; [by constructor|].
      rewrite Hst; simpl. by rewrite <- app_assoc.
    + exists [ev x (Failed e)]. split; [constructor | done].
    + exists [ev x Stalled]. split; [constructor | done].
Qed.

Lemma exchange_loop env (xs : list Exchange) (st : State) :
  exists evs,
    hooks_run EvExchangeOnReconnect xs evs
      (fst (for_each xs (exchange_hook env) st)) /\
    snd (for_each xs (exchange_hook env) st) =
      ({| futures := futures (fst st); registries := registries (fst st);
          trace := trace (fst st) ++ evs |}, snd st).
Proof.
  apply (for_each_hooks (exchange_on_reconnect env) EvExchangeOnReconnect).
Qed.

Lemma queue_loop env (qs : list Queue) (st : State) :
  exists evs,
    hooks_run EvQueueOnReconnect qs evs
      (fst (for_each qs (queue_hook env) st)) /\
    snd (for_each qs (queue_hook env) st) =
      ({| futures := futures (fst st); registries := registries (fst st);
          trace := trace (fst st) ++ evs |}, snd st).
Proof.
  apply (for_each_hooks (queue_on_reconnect env) EvQueueOnReconnect).
Qed.

(** [on_reconnect] is the swap of lines 65-73 followed by [initialize] and
    the two replay loops over the maps as they stood. *)
Lemma on_reconnect_unfold env connection channel_number st :
  on_reconnect env connection channel_number st =
  (initialize env None ;;
   for_each (dict_values (_exchanges (snd st))) (exchange_hook env) ;;
   for_each (dict_values (_queues (snd st))) (queue_hook env))
    (swapped connection channel_number st).
Proof.
  destruct st as [w c]. unfold on_reconnect, swapped, reconnect_error, bind,
    self, gets,
    future_done, set_exception, create_future, on_self, on_world, modify,
    ret; simpl.
  destruct (futures w !! _closing c) as [[]|] eqn:Hc; simpl;
    rewrite ?Hc; simpl;
    unfold initialize, super_initialize, set_qos, bind, await, self, gets,
      on_self, modify, ret; simpl;
    repeat match goal with
      | |- context [base_initialize env ?t] =>
          destruct (base_initialize env t); simpl
      | |- context [base_set_qos env ?t ?p ?q ?o] =>
          destruct (base_set_qos env t p q o); simpl
      end; try done.
  all: match goal with
       | |- context [for_each ?xs (exchange_hook ?en) ?s] =>
           destruct (exchange_loop en xs s) as (evs & _ & Hs);
           destruct (for_each xs (exchange_hook en) s) as [o st'];
           simpl in Hs; subst st'; reflexivity
       end.
Qed.

(** Two descriptions of one state: the traces agree up to the bracketing
    of the appends, the QoS pair up to eta. *)
Ltac same_state c :=
  unfold emit; simpl; rewrite <- ?app_assoc; simpl;
  by destruct c as [? ? ? ? ? ? ? ? []].

(** [initialize] and the replay loops extend the trace by a replay run,
    open a handle if the base class gives one, and touch nothing else. *)
Lemma replay_spec env (xs : list Exchange) (qs : list Queue) (st : State) :
  exists evs h,
    replay_run (_qos (snd st)) xs qs evs
      (fst ((initialize env None ;;
             for_each xs (exchange_hook env) ;;
             for_each qs (queue_hook env)) st)) /\
    snd ((initialize env None ;;
          for_each xs (exchange_hook env) ;;
          for_each qs (queue_hook env)) st) =
      ({| futures := futures (fst st); registries := registries (fst st);
          trace := trace (fst st) ++ evs |},
       with_channel h (snd st)).
Proof.
  destruct st as [w c].
  unfold initialize, super_initialize, set_qos, bind, await,
    self, gets, on_self, modify, ret; simpl.
  destruct (base_initialize env (trace w)) as [h| e |] eqn:Hinit; simpl.
  2: { exists [EvInitialize (Failed e)], (_channel c). split.
       - by apply (replay_no_handle _ _ _ (Failed e)).
       - by rewrite <- (channel_eta c) at 1. }
  2: { exists [EvInitialize Stalled], (_channel c). split.
       - by apply (replay_no_handle _ _ _ Stalled).
       - by rewrite <- (channel_eta c) at 1. }
  destruct (base_set_qos env _ _ _ _) as [[]| e |] eqn:Hqos; simpl.
  2: { exists [EvInitialize Completed;
               EvSetQos (fst (_qos c)) (snd (_qos c)) None (Failed e)], (Some h).
       split; [by apply (replay_no_qos _ _ _ (Failed e))|].
       same_state c. }
  2: { exists [EvInitialize Completed;
               EvSetQos (fst (_qos c)) (snd (_qos c)) None Stalled], (Some h).
       split; [by apply (replay_no_qos _ _ _ Stalled)|].
       same_state c. }
  match goal with
  | |- context [for_each xs (exchange_hook env) ?s] =>
      destruct (exchange_loop env xs s) as (xe & Hxe & Hs);
      destruct (for_each xs (exchange_hook env) s) as [o st']
  end.
  simpl in Hxe, Hs. subst st'.
  destruct o as [[]| e |]; simpl.
  - match goal with
    | |- context [for_each qs (queue_hook env) ?s] =>
        destruct (queue_loop env qs s) as (qe & Hqe & Hs);
        destruct (for_each qs (queue_hook env) s) as [o st']
    end.
    simpl in Hqe, Hs. subst st'. simpl.
    exists ([EvInitialize Completed;
             EvSetQos (fst (_qos c)) (snd (_qos c)) None Completed]
            ++ xe ++ qe), (Some h).
    split; [by apply replay_queues|].
    same_state c.
  - exists ([EvInitialize Completed;
             EvSetQos (fst (_qos c)) (snd (_qos c)) None Completed] ++ xe),
      (Some h).
    split; [by apply replay_exchanges|].
    same_state c.
  - exists ([EvInitialize Completed;
             EvSetQos (fst (_qos c)) (snd (_qos c)) None Completed] ++ xe),
      (Some h).
    split; [by apply replay_exchanges|].
    same_state c.
Qed.

(** ** Dictionaries *)

Section dict_facts.
Context {K V : Type} `{EqDecision K}.
Implicit Types (k : K) (v : V) (d : list (K * V)).

Lemma dict_get_set_eq k v d : dict_get k (dict_set k v d) = Some v.
Proof.
  induction d as [|[k' v'] d IH]; simpl.
  - by rewrite decide_True.
  - destruct (decide (k = k')); simpl.
    + by rewrite decide_True.
    + by rewrite decide_False.
Qed.

Lemma dict_get_set_ne k k' v d :
  k <> k' -> dict_get k' (dict_set k v d) = dict_get k' d.
Proof.
  intros Hne. induction d as [|[k0 v0] d IH]; simpl.
  - by rewrite decide_False.
  - destruct (decide (k = k0)) as [->|]; simpl.
    + by rewrite !decide_False.
    + by rewrite IH.
Qed.

Lemma dict_get_pop_eq k d : dict_get k (dict_pop k d) = None.
Proof.
  induction d as [|[k' v'] d IH]; simpl; [done|].
  destruct (decide (k = k')); simpl; [done|]. by rewrite decide_False.
Qed.

Lemma dict_get_pop_ne k k' d :
  k <> k' -> dict_get k' (dict_pop k d) = dict_get k' d.
Proof.
  intros Hne. induction d as [|[k0 v0] d IH]; simpl; [done|].
  destruct (decide (k = k0)) as [->|]; simpl.
  - by rewrite decide_False.
  - by rewrite IH.
Qed.

Lemma in_dict_pop k k' v d :
  In (k', v) (dict_pop k d) <-> k' <> k /\ In (k', v) d.
Proof.
  induction d as [|[k0 v0] d IH]; simpl; [tauto|].
  destruct (decide (k = k0)) as [->|Hne]; simpl; rewrite IH.
  - split; [tauto|]. intros [Hk [Heq|Hin]]; [congruence | done].
  - split; [|tauto]. intros [Heq|[Hk Hin]]; [|tauto].
    split; [congruence | tauto].
Qed.

Lemma in_dict_values v d : In v (dict_values d) <-> exists k, In (k, v) d.
Proof.
  unfold dict_values. rewrite in_map_iff. split.
  - intros ([k v'] & <- & Hin). by exists k.
  - intros (k & Hin). by exists (k, v).
Qed.

Lemma dict_get_none_not_in k d :
  dict_get k d = None <-> forall v, ~ In (k, v) d.
Proof.
  induction d as [|[k' v'] d IH]; simpl; [tauto|].
  destruct (decide (k = k')) as [->|Hne].
  - split; [done|]. intros Hall. destruct (Hall v'). by left.
  - rewrite IH. split.
    + intros Hall v [Heq|Hin]; [congruence | by apply (Hall v)].
    + intros Hall v Hin. apply (Hall v). by right.
Qed.
End dict_facts.

(** ** Sequential hook runs *)

Lemma hooks_run_in {A} (ev : A -> Status -> Event) xs evs r e :
  hooks_run ev xs evs r -> In e evs -> exists x s, e = ev x s /\ In x xs.
Proof.
  induction 1 as [|x xs evs r Hrun IH| |]; simpl; [done| | |].
  - intros [<-|Hin]; [by exists x, Completed; auto|].
    destruct (IH Hin) as (y & s & -> & Hy). exists y, s; auto.
  - intros [<-|[]]. exists x, (Failed e0); auto.
  - intros [<-|[]]. exists x, Stalled; auto.
Qed.

(** A run that returns has called every hook, and every hook completed. *)
Lemma hooks_run_ret {A} (ev : A -> Status -> Event) xs evs :
  hooks_run ev xs evs (Ret tt) -> evs = map (fun x => ev x Completed) xs.
Proof.
  intros Hrun. remember (Ret tt) as r eqn:Hr.
  induction Hrun as [|x xs evs r Hrun IH| |]; simpl; try done.
  by rewrite IH.
Qed.

(** In any run the hooks called are those of a prefix of the list, all of
    them completed except, when the run stops, the last. *)
Lemma hooks_run_prefix {A} (ev : A -> Status -> Event) xs evs r :
  hooks_run ev xs evs r ->
  (r = Ret tt /\ evs = map (fun x => ev x Completed) xs) \/
  (exists n x,
      xs !! n = Some x /\ r <> Ret tt /\
      evs = map (fun x => ev x Completed) (take n xs)
              ++ [ev x (status_of r)]).
Proof.
  induction 1 as [|x xs evs r Hrun IH| |]; simpl.
  - by left.
  - destruct IH as [[-> ->]|(n & y & Hn & Hr & ->)]; [by left|].
    right. exists (S n), y. by simpl.
  - right. by exists 0%nat, x.
  - right. by exists 0%nat, x.
Qed.

(** ** [on_reconnect], step by step *)

Lemma swapped_trace connection channel_number st :
  trace (fst (swapped connection channel_number st)) =
  trace (fst st) ++ swap_events st.
Proof.
  destruct st as [w c]. unfold swapped, swap_events, reject_all; simpl.
  destruct (futures w !! _closing c) as [s|]; [destruct (done s)|];
    simpl; destruct (registries w !! _futures c); simpl;
    rewrite <- ?app_assoc; simpl; by rewrite ?length_insert.
Qed.

Lemma new_events_app st st' evs :
  trace (fst st') = trace (fst st) ++ evs -> new_events st st' = evs.
Proof. unfold new_events. intros ->. by rewrite drop_app_length. Qed.

(** The whole of [on_reconnect]: the swap, then a replay run. *)
Lemma on_reconnect_spec env connection channel_number st :
  exists evs h,
    replay_run (_qos (snd st)) (dict_values (_exchanges (snd st)))
      (dict_values (_queues (snd st))) evs
      (fst (on_reconnect env connection channel_number st)) /\
    new_events st (snd (on_reconnect env connection channel_number st)) =
      swap_events st ++ evs /\
    futures (fst (snd (on_reconnect env connection channel_number st))) =
      futures (fst (swapped connection channel_number st)) /\
    registries (fst (snd (on_reconnect env connection channel_number st))) =
      registries (fst (swapped connection channel_number st)) /\
    snd (snd (on_reconnect env connection channel_number st)) =
      with_channel h (snd (swapped connection channel_number st)) /\
    trace (fst (snd (on_reconnect env connection channel_number st))) =
      trace (fst st) ++ swap_events st ++ evs.
Proof.
  rewrite on_reconnect_unfold.
  destruct (replay_spec env (dict_values (_exchanges (snd st)))
              (dict_values (_queues (snd st)))
              (swapped connection channel_number st))
    as (evs & h & Hrun & Hst).
  exists evs, h. rewrite Hst.
  assert (trace (fst st) ++ swap_events st ++ evs =
          trace (fst (swapped connection channel_number st)) ++ evs) as Htr
    by (by rewrite swapped_trace, <- app_assoc).
  repeat split; [done| |done].
  by apply new_events_app.
Qed.

(** ** What the replay calls *)

Lemma swap_events_no_init st e :
  In e (swap_events st) -> is_init_event e = false /\
    is_exchange_hook e = false /\ is_queue_hook e = false.
Proof.
  unfold swap_events. rewrite in_app_iff. intros [Hin|Hin].
  - destruct (futures (fst st) !! _closing (snd st)) as [s|];
      [destruct (done s)|]; simpl in Hin; try done;
      by destruct Hin as [<-|[]].
  - simpl in Hin. by destruct Hin as [<-|[<-|[]]].
Qed.

Lemma exchange_hooks_only xs evs r e :
  hooks_run EvExchangeOnReconnect xs evs r -> In e evs ->
  is_init_event e = false /\ is_exchange_hook e = true /\
    is_queue_hook e = false.
Proof.
  intros Hrun Hin. by destruct (hooks_run_in _ _ _ _ _ Hrun Hin)
    as (x & s & -> & _).
Qed.

Lemma queue_hooks_only qs evs r e :
  hooks_run EvQueueOnReconnect qs evs r -> In e evs ->
  is_init_event e = false /\ is_exchange_hook e = false /\
    is_queue_hook e = true.
Proof.
  intros Hrun Hin. by destruct (hooks_run_in _ _ _ _ _ Hrun Hin)
    as (x & s & -> & _).
Qed.

(** The hooks a replay run calls belong to remembered entities. *)
Lemma replay_run_exchange_in qos xs qs evs r x s :
  replay_run qos xs qs evs r ->
  In (EvExchangeOnReconnect x s) evs -> In x xs.
Proof.
  intros Hrun Hin.
  inversion Hrun as [s0 Hs|s0 Hs|xe r0 Hr Hxe|xe qe r0 Hxe Hqe];
    subst; simpl in Hin.
  - by destruct Hin as [|[]].
  - by destruct Hin as [|[|[]]].
  - destruct Hin as [|[|Hin]]; [done..|].
    destruct (hooks_run_in _ _ _ _ _ Hxe Hin) as (y & s' & Heq & Hy).
    by inversion Heq; subst.
  - destruct Hin as [|[|Hin]]; [done..|].
    apply in_app_iff in Hin as [Hin|Hin].
    + destruct (hooks_run_in _ _ _ _ _ Hxe Hin) as (y & s' & Heq & Hy).
      by inversion Heq; subst.
    + by destruct (hooks_run_in _ _ _ _ _ Hqe Hin) as (y & s' & Heq & Hy).
Qed.

Lemma replay_run_queue_in qos xs qs evs r q s :
  replay_run qos xs qs evs r ->
  In (EvQueueOnReconnect q s) evs -> In q qs.
Proof.
  intros Hrun Hin.
  inversion Hrun as [s0 Hs|s0 Hs|xe r0 Hr Hxe|xe qe r0 Hxe Hqe];
    subst; simpl in Hin.
  - by destruct Hin as [|[]].
  - by destruct Hin as [|[|[]]].
  - destruct Hin as [|[|Hin]]; [done..|].
    by destruct (hooks_run_in _ _ _ _ _ Hxe Hin) as (y & s' & Heq & Hy).
  - destruct Hin as [|[|Hin]]; [done..|].
    apply in_app_iff in Hin as [Hin|Hin].
    + by destruct (hooks_run_in _ _ _ _ _ Hxe Hin) as (y & s' & Heq & Hy).
    + destruct (hooks_run_in _ _ _ _ _ Hqe Hin) as (y & s' & Heq & Hy).
      by inversion Heq; subst.
Qed.

Lemma on_reconnect_exchange_hook env connection channel_number st x s :
  In (EvExchangeOnReconnect x s)
    (new_events st (snd (on_reconnect env connection channel_number st))) ->
  In x (dict_values (_exchanges (snd st))).
Proof.
  destruct (on_reconnect_spec env connection channel_number st)
    as (evs & h & Hrun & -> & _).
  rewrite in_app_iff. intros [Hin|Hin].
  - by destruct (swap_events_no_init _ _ Hin) as (_ & ? & _).
  - eapply replay_run_exchange_in; eauto.
Qed.

Lemma on_reconnect_queue_hook env connection channel_number st q s :
  In (EvQueueOnReconnect q s)
    (new_events st (snd (on_reconnect env connection channel_number st))) ->
  In q (dict_values (_queues (snd st))).
Proof.
  destruct (on_reconnect_spec env connection channel_number st)
    as (evs & h & Hrun & -> & _).
  rewrite in_app_iff. intros [Hin|Hin].
  - by destruct (swap_events_no_init _ _ Hin) as (_ & _ & ?).
  - eapply replay_run_queue_in; eauto.
Qed.

(** ** Declaring and deleting *)

Lemma declare_exchange_ret env name a robust st x st1 :
  declare_exchange env name a robust st = (Ret x, st1) ->
  snd st1 =
    if negb (ex_internal a) && robust
    then with_exchanges (dict_set name x (_exchanges (snd st))) (snd st)
    else snd st.
Proof.
  unfold declare_exchange, bind, await, on_self, modify, ret; simpl.
  destruct (base_declare_exchange env _ _ _); simpl; [|done..].
  destruct (negb (ex_internal a) && robust); simpl; by intros [= <- <-].
Qed.

Lemma declare_queue_ret env name a robust st q st1 :
  declare_queue env name a robust st = (Ret q, st1) ->
  snd st1 =
    if robust
    then with_queues (dict_set name q (_queues (snd st))) (snd st)
    else snd st.
Proof.
  unfold declare_queue, bind, await, on_self, modify, ret; simpl.
  destruct (base_declare_queue env _ _ _); simpl; [|done..].
  destruct robust; simpl; by intros [= <- <-].
Qed.

Lemma exchange_delete_ret env name a st r st1 :
  exchange_delete env name a st = (Ret r, st1) ->
  snd st1 = with_exchanges (dict_pop name (_exchanges (snd st))) (snd st).
Proof.
  unfold exchange_delete, bind, await, on_self, modify, ret; simpl.
  destruct (base_exchange_delete env _ _ _); simpl; [|done..].
  by intros [= <- <-].
Qed.

Lemma queue_delete_ret env name a st r st1 :
  queue_delete env name a st = (Ret r, st1) ->
  snd st1 = with_queues (dict_pop (Some name) (_queues (snd st))) (snd st).
Proof.
  unfold queue_delete, bind, await, on_self, modify, ret; simpl.
  destruct (base_queue_delete env _ _ _); simpl; [|done..].
  by intros [= <- <-].
Qed.

(** C1 (as amended).  A successful [declare_exchange] stores the returned
    exchange under its name when [internal] is false and the recoverable
    flag is true, and otherwise leaves the recovery map as it was, so that a
    name not remembered before is present afterwards exactly when
    [internal] is false and the flag is true.  A successful [declare_queue]
    with the recoverable flag true and a name supplied by the caller stores
    the returned queue under that name, which is its resulting name when the
    broker keeps the name it was given. *)
Theorem declare_registers env name a robust n qa x q st st1 st2 :
  declare_exchange env name a robust st = (Ret x, st1) ->
  declare_queue env (Some n) qa true st = (Ret q, st2) ->
  (if negb (ex_internal a) && robust
   then dict_get name (_exchanges (snd st1)) = Some x
   else _exchanges (snd st1) = _exchanges (snd st)) /\
  (dict_get name (_exchanges (snd st)) = None ->
   dict_get name (_exchanges (snd st1)) <> None <->
     ex_internal a = false /\ robust = true) /\
  dict_get (Some n) (_queues (snd st2)) = Some q /\
  (queue_name q = n ->
   dict_get (Some (queue_name q)) (_queues (snd st2)) = Some q).
Proof.
  intros Hx Hq.
  apply declare_exchange_ret in Hx. apply declare_queue_ret in Hq.
  rewrite Hx, Hq. simpl. repeat split.
  - destruct (negb (ex_internal a) && robust); simpl; [|done].
    apply dict_get_set_eq.
  - destruct (ex_internal a), robust; simpl in *; congruence.
  - destruct (ex_internal a), robust; simpl in *; congruence.
  - intros [-> ->]. simpl. by rewrite dict_get_set_eq.
  - apply dict_get_set_eq.
  - intros ->. apply dict_get_set_eq.
Qed.

Lemma declare_registers_witness :
  exists (x : Exchange) (q : Queue) (st1 st2 : State),
    declare_exchange calm "orders"%string plain_exchange true new_channel
      = (Ret x, st1) /\
    declare_queue calm (Some "jobs"%string) plain_queue true new_channel
      = (Ret q, st2) /\
    dict_get "orders"%string (_exchanges (snd st1)) = Some x /\
    dict_get (Some "jobs"%string) (_queues (snd st2)) = Some q.
Proof.
  eexists _, _, _, _.
  split; [reflexivity|]. split; [reflexivity|].
  pose proof (declare_registers calm "orders"%string plain_exchange true
                "jobs"%string plain_queue _ _ new_channel _ _
                eq_refl eq_refl) as (Hx & _ & Hq & _).
  split; [exact Hx | exact Hq].
Defined.

(** C1, as stated, fails twice: an exchange declared again with recovery
    disabled is still in the recovery map, and a queue declared without a
    name is stored under [None], not under the name the broker gave it. *)
Lemma declare_registers_counterexample :
  (exists x1 st1 x2 st2,
      declare_exchange calm "F"%string plain_exchange true new_channel
        = (Ret x1, st1) /\
      declare_exchange calm "F"%string plain_exchange false st1
        = (Ret x2, st2) /\
      dict_get "F"%string (_exchanges (snd st2)) = Some x1) /\
  (exists q st3,
      declare_queue calm None plain_queue true new_channel = (Ret q, st3) /\
      queue_name q = "amq.gen-1"%string /\
      dict_get (Some (queue_name q)) (_queues (snd st3)) = None /\
      dict_get None (_queues (snd st3)) = Some q).
Proof.
  split.
  - by eexists _, _, _, _.
  - by eexists _, _.
Qed.

(** C4.  [set_qos] with [all_channels] true raises the unsupported-operation
    error and leaves the whole state as it was: the stored QoS pair is the
    one from before the call and the trace has no new call, so nothing was
    delegated to the base class. *)
Theorem set_qos_all_channels_rejected env p q timeout st :
  fst (set_qos env p q true timeout st) =
    Raise (NotImplementedError "Not available to RobustConnection"%string) /\
  _qos (snd (snd (set_qos env p q true timeout st))) = _qos (snd st) /\
  qos_applied (new_events st (snd (set_qos env p q true timeout st))) = [] /\
  new_events st (snd (set_qos env p q true timeout st)) = [] /\
  snd (set_qos env p q true timeout st) = st.
Proof.
  assert (snd (set_qos env p q true timeout st) = st) as Hsame by reflexivity.
  rewrite Hsame. repeat split.
  - unfold new_events. by rewrite drop_all.
  - unfold new_events. by rewrite drop_all.
Qed.

(** C5.  A queue declared without a name is remembered under the key
    [None] (line 161), not under the name the broker gave it, so deleting it
    by that name pops nothing (line 173): the queue stays in the recovery
    map and the next [on_reconnect] calls its hook. *)
Lemma deleted_queue_is_replayed :
  exists q st1 r st2,
    declare_queue calm None plain_queue true new_channel = (Ret q, st1) /\
    queue_name q = "amq.gen-1"%string /\
    queue_delete calm (queue_name q) plain_queue_delete st1 = (Ret r, st2) /\
    _queues (snd st2) = [(None, q)] /\
    fst (on_reconnect calm 2 7 st2) = Ret tt /\
    In (EvQueueOnReconnect q Completed)
      (new_events st2 (snd (on_reconnect calm 2 7 st2))) /\
    hooks_called (new_events st2 (snd (on_reconnect calm 2 7 st2)))
    = [AQueue q].
Proof.
  eexists _, _, _, _. do 5 (split; [reflexivity|]).
  split; [vm_compute; tauto | reflexivity].
Qed.

(** ** How far a replay gets *)

Lemma stopped_status (r : Outcome unit) :
  r <> Ret tt -> status_of r <> Completed /\ stopped (status_of r) = r.
Proof. by destruct r as [[]| |]. Qed.

Lemma replay_run_progress qos xs qs evs r :
  replay_run qos xs qs evs r ->
  exists p,
    progress_ok xs qs p /\ evs = replay_trace qos xs qs p /\
    r = progress_outcome p.
Proof.
  intros Hrun.
  inversion Hrun as [s Hs|s Hs|xe r0 Hr Hxe|xe qe r0 Hxe Hqe]; subst.
  - by exists (StoppedAtInitialize s).
  - by exists (StoppedAtQos s).
  - destruct (hooks_run_prefix _ _ _ _ Hxe)
      as [[-> _]|(i & x & Hi & _ & ->)]; [done|].
    destruct (stopped_status r Hr) as [Hs Hstop].
    exists (StoppedAtExchange i (status_of r)). repeat split; [done| | |done].
    + by apply lookup_lt_Some in Hi.
    + simpl. unfold stopping_hook, completed_hooks. by rewrite Hi.
  - apply hooks_run_ret in Hxe as ->.
    destruct (hooks_run_prefix _ _ _ _ Hqe)
      as [[-> ->]|(j & q & Hj & Hr & ->)].
    + by exists Replayed.
    + destruct (stopped_status r Hr) as [Hs Hstop].
      exists (StoppedAtQueue j (status_of r)). repeat split; [done| | |done].
      * by apply lookup_lt_Some in Hj.
      * simpl. unfold stopping_hook, completed_hooks. by rewrite Hj.
Qed.

(** [on_reconnect] in one line: the calls of the swap, then those of a
    replay that got as far as some [p], which also decides the outcome. *)
Lemma on_reconnect_progress env connection number st :
  exists p,
    progress_ok (dict_values (_exchanges (snd st)))
      (dict_values (_queues (snd st))) p /\
    new_events st (snd (on_reconnect env connection number st)) =
      swap_events st
      ++ replay_trace (_qos (snd st)) (dict_values (_exchanges (snd st)))
           (dict_values (_queues (snd st))) p /\
    fst (on_reconnect env connection number st) = progress_outcome p.
Proof.
  destruct (on_reconnect_spec env connection number st)
    as (evs & h & Hrun & Hnew & _).
  destruct (replay_run_progress _ _ _ _ _ Hrun) as (p & Hok & -> & Hr).
  by exists p.
Qed.

(** ** Quality of service *)

Lemma qos_applied_app t1 t2 :
  qos_applied (t1 ++ t2) = qos_applied t1 ++ qos_applied t2.
Proof. apply omap_app. Qed.

Lemma opened_app t1 t2 : opened (t1 ++ t2) = opened t1 || opened t2.
Proof. apply existsb_app. Qed.

Lemma no_init_events t :
  (forall e, In e t -> is_init_event e = false) ->
  qos_applied t = [] /\ opened t = false.
Proof.
  induction t as [|e t IH]; intros Hall; [done|].
  destruct IH as [IH1 IH2]; [intros e' He'; apply Hall; by right|].
  pose proof (Hall e (or_introl eq_refl)) as He.
  unfold qos_applied, opened in *. simpl. rewrite IH2.
  by destruct e as [| | | |[]| | | | | | | | |].
Qed.

Lemma completed_hooks_no_init {A} (ev : A -> Status -> Event) xs :
  (forall x s, is_init_event (ev x s) = false) ->
  qos_applied (completed_hooks ev xs) = [] /\
  opened (completed_hooks ev xs) = false.
Proof.
  intros Hev. apply no_init_events. intros e Hin.
  apply in_map_iff in Hin as (x & <- & _). apply Hev.
Qed.

Lemma stopping_hook_no_init {A} (ev : A -> Status -> Event) xs i s :
  (forall x s, is_init_event (ev x s) = false) ->
  qos_applied (stopping_hook ev xs i s) = [] /\
  opened (stopping_hook ev xs i s) = false.
Proof.
  intros Hev. apply no_init_events. intros e. unfold stopping_hook.
  destruct (xs !! i); simpl; [|done]. intros [<-|[]]. apply Hev.
Qed.

Lemma swap_events_qos st :
  qos_applied (swap_events st) = [] /\ opened (swap_events st) = false.
Proof.
  apply no_init_events. intros e He.
  by destruct (swap_events_no_init _ _ He).
Qed.

Lemma replay_trace_qos qos xs qs p :
  progress_ok xs qs p ->
  qos_applied (replay_trace qos xs qs p) =
    if opened (replay_trace qos xs qs p) then [qos] else [].
Proof.
  pose proof (completed_hooks_no_init EvExchangeOnReconnect) as Hx.
  pose proof (completed_hooks_no_init EvQueueOnReconnect) as Hq.
  pose proof (stopping_hook_no_init EvExchangeOnReconnect) as Hsx.
  pose proof (stopping_hook_no_init EvQueueOnReconnect) as Hsq.
  destruct qos as [pc ps].
  destruct p as [s|s|i s|j s|]; cbn [replay_trace progress_ok]; intros Hok.
  - by destruct s.
  - done.
  - rewrite !qos_applied_app, !opened_app.
    destruct (Hx (take i xs)) as [-> ->]; [done|].
    by destruct (Hsx xs i s) as [-> ->].
  - rewrite !qos_applied_app, !opened_app.
    destruct (Hx xs) as [-> ->]; [done|].
    destruct (Hq (take j qs)) as [-> ->]; [done|].
    by destruct (Hsq qs j s) as [-> ->].
  - rewrite !qos_applied_app, !opened_app.
    destruct (Hx xs) as [-> ->]; [done|].
    by destruct (Hq qs) as [-> ->].
Qed.

Lemma set_qos_state env p q timeout st :
  set_qos env p q false timeout st =
  (base_set_qos env (trace (fst st)) p q timeout,
   (emit (EvSetQos p q timeout
            (status_of (base_set_qos env (trace (fst st)) p q timeout)))
      (fst st),
    with_qos (p, q) (snd st))).
Proof. reflexivity. Qed.

Lemma run_set_qos_calls env l st :
  _qos (snd (run env (set_qos_calls l) st)) =
  default (_qos (snd st)) (last (map fst l)).
Proof.
  revert st. induction l as [|[[p q] t] l IH]; intros st; [done|].
  unfold run in *. simpl. rewrite IH. rewrite last_cons.
  by destruct (last (map fst l)).
Qed.

(** ** The order of the replay *)

Lemma hooks_called_app t1 t2 :
  hooks_called (t1 ++ t2) = hooks_called t1 ++ hooks_called t2.
Proof. apply omap_app. Qed.

Lemma hooks_called_swap st : hooks_called (swap_events st) = [].
Proof.
  unfold swap_events.
  by destruct (futures (fst st) !! _closing (snd st)) as [[]|].
Qed.

Lemma hooks_called_exchanges xs :
  hooks_called (completed_hooks EvExchangeOnReconnect xs) = map AnExchange xs.
Proof. induction xs as [|x xs IH]; [done|]. simpl. by rewrite <- IH. Qed.

Lemma hooks_called_queues qs :
  hooks_called (completed_hooks EvQueueOnReconnect qs) = map AQueue qs.
Proof. induction qs as [|q qs IH]; [done|]. simpl. by rewrite <- IH. Qed.

(** The hooks of a replay are those of a prefix of the replay order. *)
Lemma replay_trace_hooks qos xs qs p :
  progress_ok xs qs p ->
  exists k,
    hooks_called (replay_trace qos xs qs p) =
    take k (map AnExchange xs ++ map AQueue qs).
Proof.
  destruct p as [s|s|i s|j s|]; cbn [replay_trace progress_ok].
  - by exists 0%nat.
  - by exists 0%nat.
  - intros [_ Hi]. apply lookup_lt_is_Some in Hi as [x Hx].
    exists (S i). unfold stopping_hook. rewrite Hx.
    rewrite !hooks_called_app, hooks_called_exchanges.
    rewrite take_app_le by (rewrite length_map; by apply lookup_lt_Some in Hx).
    by rewrite firstn_map, (take_S_r _ _ _ Hx), map_app.
  - intros [_ Hj]. apply lookup_lt_is_Some in Hj as [q Hq].
    exists (length (map AnExchange xs) + S j)%nat.
    unfold stopping_hook. rewrite Hq.
    rewrite !hooks_called_app, hooks_called_exchanges, hooks_called_queues.
    rewrite take_app_add.
    by rewrite firstn_map, (take_S_r _ _ _ Hq), map_app.
  - intros _. exists (length (map AnExchange xs ++ map AQueue qs)).
    rewrite !hooks_called_app, hooks_called_exchanges, hooks_called_queues.
    by rewrite firstn_all.
Qed.

Lemma completed_hooks_went_on {A} (ev : A -> Status -> Event) xs :
  (forall x, went_on (ev x Completed) = true) ->
  Forall (fun e => went_on e = true) (completed_hooks ev xs).
Proof. intros Hev. apply Forall_map. by apply Forall_forall. Qed.

(** Each call of a replay is made after the one before it completed: all
    calls went on, or all but the last did and the last decides the
    outcome. *)
Lemma replay_trace_sequential qos xs qs p :
  progress_ok xs qs p ->
  (progress_outcome p = Ret tt /\
   Forall (fun e => went_on e = true) (replay_trace qos xs qs p)) \/
  (exists body final s,
      replay_trace qos xs qs p = body ++ [final] /\
      Forall (fun e => went_on e = true) body /\
      event_status final = Some s /\ s <> Completed /\
      is_init_event final || is_exchange_hook final || is_queue_hook final
        = true /\
      progress_outcome p = stopped s).
Proof.
  pose proof (completed_hooks_went_on EvExchangeOnReconnect) as Hx.
  pose proof (completed_hooks_went_on EvQueueOnReconnect) as Hq.
  assert (forall t,
             Forall (fun e => went_on e = true) t ->
             Forall (fun e => went_on e = true)
               ([EvInitialize Completed;
                 EvSetQos (fst qos) (snd qos) None Completed] ++ t))
    as Hini by (intros t Ht; by repeat constructor).
  destruct p as [s|s|i s|j s|]; cbn [replay_trace progress_ok progress_outcome].
  - intros Hs. right. by exists [], (EvInitialize s), s.
  - intros Hs. right.
    exists [EvInitialize Completed],
      (EvSetQos (fst qos) (snd qos) None s), s.
    repeat split; try done. by repeat constructor.
  - intros [Hs Hi]. apply lookup_lt_is_Some in Hi as [x Hi]. right.
    unfold stopping_hook. rewrite Hi.
    exists ([EvInitialize Completed;
             EvSetQos (fst qos) (snd qos) None Completed]
            ++ completed_hooks EvExchangeOnReconnect (take i xs)),
      (EvExchangeOnReconnect x s), s.
    split; [by rewrite <- app_assoc|]. split; [|done].
    apply Hini. by apply Hx.
  - intros [Hs Hj]. apply lookup_lt_is_Some in Hj as [q Hj]. right.
    unfold stopping_hook. rewrite Hj.
    exists ([EvInitialize Completed;
             EvSetQos (fst qos) (snd qos) None Completed]
            ++ completed_hooks EvExchangeOnReconnect xs
            ++ completed_hooks EvQueueOnReconnect (take j qs)),
      (EvQueueOnReconnect q s), s.
    split; [by rewrite <- !app_assoc|]. split; [|done].
    apply Hini, Forall_app. split; [by apply Hx | by apply Hq].
  - intros _. left. split; [done|].
    apply Hini, Forall_app. split; [by apply Hx | by apply Hq].
Qed.

Lemma swap_events_went_on st :
  Forall (fun e => went_on e = true) (swap_events st).
Proof.
  unfold swap_events. apply Forall_app. split; [|by repeat constructor].
  destruct (futures (fst st) !! _closing (snd st)) as [[]|];
    simpl; by repeat constructor.
Qed.

(** C6.  The calls of one [on_reconnect] are, in this order: the swap of
    the closing signal and the bulk failure; [initialize], that is the
    opening of the handle and then the QoS call; the hooks of the remembered
    exchanges in map order; the hooks of the remembered queues in map order.
    The replay stops at the first call that does not complete, so a hook is
    called only after [initialize] and the QoS call completed, an exchange's
    hook only after the hook of the exchange before it completed, and a
    queue's hook only after the hooks of all exchanges completed. *)
Theorem replay_ordering env connection number st :
  let new := new_events st (snd (on_reconnect env connection number st)) in
  (exists p,
      progress_ok (dict_values (_exchanges (snd st)))
        (dict_values (_queues (snd st))) p /\
      new = swap_events st
            ++ replay_trace (_qos (snd st))
                 (dict_values (_exchanges (snd st)))
                 (dict_values (_queues (snd st))) p) /\
  (exists k, hooks_called new = take k (replay_order (snd st))) /\
  (Forall (fun e => went_on e = true) new \/
   exists body final,
     new = body ++ [final] /\ Forall (fun e => went_on e = true) body).
Proof.
  intros new. subst new.
  destruct (on_reconnect_progress env connection number st)
    as (p & Hok & -> & _).
  split; [by exists p|]. split.
  - destruct (replay_trace_hooks (_qos (snd st)) _ _ _ Hok) as [k Hk].
    exists k. by rewrite hooks_called_app, hooks_called_swap, Hk.
  - destruct (replay_trace_sequential (_qos (snd st)) _ _ _ Hok)
      as [[_ Hall]|(body & final & s & -> & Hbody & _)].
    + left. apply Forall_app. split; [apply swap_events_went_on | done].
    + right. exists (swap_events st ++ body), final.
      split; [by rewrite app_assoc|].
      apply Forall_app. split; [apply swap_events_went_on | done].
Qed.

(** The call a replay stopped at is the last it made, so the last hook
    called is that of the entity it stopped at, and no hook was called when
    it stopped before the loops. *)
Lemma replay_trace_last_hook qos xs qs p body final :
  progress_ok xs qs p -> p <> Replayed ->
  replay_trace qos xs qs p = body ++ [final] ->
  last (hooks_called (replay_trace qos xs qs p)) = hook_called final.
Proof.
  destruct p as [s|s|i s|j s|]; cbn [replay_trace progress_ok];
    intros Hok Hp Heq; [| | | |done].
  - by apply (app_inj_tail [] body) in Heq as [_ <-].
  - by apply (app_inj_tail [EvInitialize Completed] body) in Heq as [_ <-].
  - destruct Hok as [_ Hi]. apply lookup_lt_is_Some in Hi as [x Hx].
    unfold stopping_hook in *. rewrite Hx in *.
    rewrite !app_assoc in Heq. apply app_inj_tail in Heq as [_ <-].
    rewrite !app_assoc, hooks_called_app.
    change (hooks_called [EvExchangeOnReconnect x s]) with [AnExchange x].
    by rewrite last_snoc.
  - destruct Hok as [_ Hj]. apply lookup_lt_is_Some in Hj as [q Hq].
    unfold stopping_hook in *. rewrite Hq in *.
    rewrite !app_assoc in Heq. apply app_inj_tail in Heq as [_ <-].
    rewrite !app_assoc, hooks_called_app.
    change (hooks_called [EvQueueOnReconnect q s]) with [AQueue q].
    by rewrite last_snoc.
Qed.

(** C8.  When a call that [on_reconnect] makes raises, be it the opening of
    the handle, the QoS call or an entity's hook, [on_reconnect] raises that
    very error and the call is the last it made: every call before it
    completed, the hooks called are those of a prefix of the replay order,
    and the last of them is the hook that raised, so no entity after the
    failing one had its hook called, and no hook at all was called when the
    opening or the QoS call raised. *)
Theorem reconnect_fails_fast env connection number st failing e :
  In failing (new_events st (snd (on_reconnect env connection number st))) ->
  event_status failing = Some (Failed e) ->
  fst (on_reconnect env connection number st) = Raise e /\
  is_init_event failing || is_exchange_hook failing
    || is_queue_hook failing = true /\
  (exists body,
      new_events st (snd (on_reconnect env connection number st))
        = body ++ [failing] /\
      Forall (fun ev => went_on ev = true) body) /\
  (exists k,
      hooks_called
        (new_events st (snd (on_reconnect env connection number st)))
      = take k (replay_order (snd st))) /\
  last (hooks_called
          (new_events st (snd (on_reconnect env connection number st))))
  = hook_called failing.
Proof.
  intros Hin Hfail.
  destruct (on_reconnect_progress env connection number st)
    as (p & Hok & Hnew & Hout).
  rewrite Hnew in *. rewrite Hout. clear Hnew Hout.
  assert (went_on failing = false) as Hwent
    by (unfold went_on; by rewrite Hfail).
  pose proof (swap_events_went_on st) as Hswap.
  destruct (replay_trace_sequential (_qos (snd st)) _ _ _ Hok)
    as [[_ Hall]|(body & final & s & Heq & Hbody & Hs & Hne & Hkind & Hstop)].
  { apply in_app_iff in Hin as [Hin|Hin];
      [rewrite Forall_forall in Hswap; apply list_elem_of_In, Hswap in Hin
      |rewrite Forall_forall in Hall; apply list_elem_of_In, Hall in Hin];
      congruence. }
  assert (failing = final) as ->.
  { rewrite Heq, !in_app_iff in Hin. destruct Hin as [Hin|[Hin|Hin]].
    - rewrite Forall_forall in Hswap. apply list_elem_of_In, Hswap in Hin.
      congruence.
    - rewrite Forall_forall in Hbody. apply list_elem_of_In, Hbody in Hin.
      congruence.
    - by destruct Hin as [<-|[]]. }
  assert (s = Failed e) as -> by congruence.
  split; [by rewrite Hstop|]. split; [done|]. split; [|split].
  - exists (swap_events st ++ body). rewrite Heq. split; [by rewrite app_assoc|].
    by apply Forall_app.
  - destruct (replay_trace_hooks (_qos (snd st)) _ _ _ Hok) as [k Hk].
    exists k. by rewrite hooks_called_app, hooks_called_swap, Hk.
  - rewrite hooks_called_app, hooks_called_swap. simpl.
    apply (replay_trace_last_hook _ _ _ _ body); [done| |done].
    intros ->. by simpl in Hstop.
Qed.

(** ** Bulk failure *)

Lemma reject_future_length e h f : length (reject_future e h f) = length h.
Proof.
  unfold reject_future. destruct (h !! f) as [[]|]; try done.
  apply length_insert.
Qed.

Lemma reject_all_length e ms h :
  length (foldl (reject_future e) h ms) = length h.
Proof.
  revert h. induction ms as [|f ms IH]; intros h; simpl; [done|].
  by rewrite IH, reject_future_length.
Qed.

(** A bulk failure changes a future only if it is tracked and pending, and
    then gives it the error. *)
Lemma reject_all_lookup e ms h g s :
  h !! g = Some s ->
  exists s',
    foldl (reject_future e) h ms !! g = Some s' /\
    (s' = s \/ (s = FutPending /\ s' = FutException e /\ In g ms)).
Proof.
  revert h s. induction ms as [|f ms IH]; intros h s Hg; simpl.
  - exists s. auto.
  - assert (exists s1,
               reject_future e h f !! g = Some s1 /\
               (s1 = s \/ (s = FutPending /\ s1 = FutException e /\ g = f)))
      as (s1 & H1 & Hs1).
    { unfold reject_future. destruct (h !! f) as [[]|] eqn:Hf; try by eauto.
      destruct (decide (g = f)) as [->|Hne].
      - exists (FutException e). split.
        + apply list_lookup_insert_eq. by apply lookup_lt_Some in Hf.
        + right. split; [congruence | done].
      - exists s. by rewrite list_lookup_insert_ne; auto. }
    destruct (IH _ _ H1) as (s' & Hs' & Hcase). exists s'. split; [done|].
    destruct Hs1 as [->|(-> & -> & ->)].
    + destruct Hcase as [->|(-> & -> & Hin)]; [by left|].
      right. repeat split; try done. by right.
    + destruct Hcase as [->|(? & _)]; [|done].
      right. repeat split; try done. by left.
Qed.

Lemma reject_all_member e ms h g :
  In g ms -> h !! g = Some FutPending ->
  foldl (reject_future e) h ms !! g = Some (FutException e).
Proof.
  revert h. induction ms as [|f ms IH]; intros h; [done|].
  intros Hin Hg. simpl.
  destruct (decide (g = f)) as [->|Hne].
  - unfold reject_future at 2. rewrite Hg.
    destruct (reject_all_lookup e ms (<[f := FutException e]> h) f
                (FutException e)) as (s' & Hs' & [->|(? & _)]); [|done..].
    apply list_lookup_insert_eq. by apply lookup_lt_Some in Hg.
  - destruct Hin as [->|Hin]; [done|]. apply IH; [done|].
    unfold reject_future. destruct (h !! f) as [[]|]; try done.
    by rewrite list_lookup_insert_ne.
Qed.

Lemma reject_all_other e ms h g :
  ~ In g ms -> foldl (reject_future e) h ms !! g = h !! g.
Proof.
  intros Hnot. destruct (h !! g) as [s|] eqn:Hg.
  - destruct (reject_all_lookup e ms h g s Hg) as (s' & Hs' & [->|(_ & _ & ?)]);
      done.
  - apply lookup_ge_None. rewrite reject_all_length.
    by apply lookup_ge_None.
Qed.

(** ** The heaps after the swap *)

Lemma closing_rejected_length st :
  length (closing_rejected st) = length (futures (fst st)).
Proof.
  unfold closing_rejected.
  destruct (futures (fst st) !! _closing (snd st)) as [s|]; [|done].
  destruct (done s); [done|]. apply length_insert.
Qed.

Lemma swapped_futures connection number st :
  futures (fst (swapped connection number st)) =
  foldl (reject_future reconnect_error)
    (closing_rejected st ++ [FutPending])
    (pending_in (_futures (snd st)) (fst st)).
Proof.
  destruct st as [w c].
  unfold swapped, closing_rejected, pending_in, reject_all; simpl.
  destruct (futures w !! _closing c) as [s|] eqn:Hc;
    [destruct (done s)|]; simpl;
    destruct (registries w !! _futures c); simpl; try done.
  all: rewrite list_insert_ge; [done|]; by apply lookup_ge_None.
Qed.

Lemma swapped_self connection number st :
  snd (swapped connection number st) =
  with_channel_number (Some number)
    (with_connection connection
       (with_closing (length (futures (fst st))) (snd st))).
Proof.
  destruct st as [w c]. unfold swapped; simpl.
  destruct (futures w !! _closing c) as [s|]; [destruct (done s)|];
    simpl; by rewrite ?length_insert.
Qed.

Lemma closing_rejected_lookup st g s :
  futures (fst st) !! g = Some s ->
  exists s',
    closing_rejected st !! g = Some s' /\
    (s' = s \/
     (g = _closing (snd st) /\ s = FutPending /\
      s' = FutException reconnect_error)).
Proof.
  intros Hg. unfold closing_rejected.
  destruct (futures (fst st) !! _closing (snd st)) as [sc|] eqn:Hc;
    [|by eauto].
  destruct (done sc) eqn:Hd; [by eauto|].
  destruct (decide (g = _closing (snd st))) as [->|Hne].
  - exists (FutException reconnect_error). split.
    + apply list_lookup_insert_eq. by apply lookup_lt_Some in Hc.
    + right. destruct sc; try done. split; [done|]. split; [congruence|done].
  - exists s. by rewrite list_lookup_insert_ne; auto.
Qed.

(** What one [on_reconnect] does to a future that existed: nothing, unless
    it was pending and is the closing signal or is tracked by the channel's
    registry, and then it gets the connection-lost error. *)
Lemma on_reconnect_lookup env connection number st g s :
  futures (fst st) !! g = Some s ->
  exists s',
    futures (fst (snd (on_reconnect env connection number st))) !! g
      = Some s' /\
    (s' = s \/
     (s = FutPending /\ s' = FutException reconnect_error /\
      (g = _closing (snd st) \/
       In g (pending_in (_futures (snd st)) (fst st))))).
Proof.
  intros Hg.
  destruct (on_reconnect_spec env connection number st)
    as (evs & h & _ & _ & -> & _).
  rewrite swapped_futures.
  destruct (closing_rejected_lookup st g s Hg) as (s1 & H1 & Hs1).
  destruct (reject_all_lookup reconnect_error
              (pending_in (_futures (snd st)) (fst st))
              (closing_rejected st ++ [FutPending]) g s1)
    as (s' & Hs' & Hcase).
  { rewrite lookup_app_l; [done|]. by apply lookup_lt_Some in H1. }
  exists s'. split; [done|].
  destruct Hs1 as [->|(-> & -> & ->)].
  - destruct Hcase as [->|(-> & -> & Hin)]; auto.
  - destruct Hcase as [->|(? & _)]; [auto | done].
Qed.

(** ** One operation at a time *)

Ltac unfold_ops :=
  unfold step, close, close_body, await_closing, initialize,
    super_initialize, set_qos, declare_exchange, exchange_delete,
    declare_queue, queue_delete, register_pending, bind, await, raise, ret,
    self, gets, on_self, on_world, modify.

(** Every operation but [on_reconnect], run to its end. *)
Ltac run_op st :=
  destruct st as [?w ?c]; unfold_ops; simpl;
  repeat (case_match; simpl in *; simplify_eq); simpl in *.

Lemma on_reconnect_self env connection number st :
  exists h,
    snd (snd (on_reconnect env connection number st)) =
    with_channel h
      (with_channel_number (Some number)
         (with_connection connection
            (with_closing (length (futures (fst st))) (snd st)))).
Proof.
  destruct (on_reconnect_spec env connection number st)
    as (evs & h & _ & _ & _ & _ & -> & _).
  exists h. by rewrite swapped_self.
Qed.

(** The registry a channel got at construction stays its registry. *)
Lemma step_registry env st op :
  _futures (snd (step env st op)) = _futures (snd st).
Proof.
  destruct op; try (run_op st; done).
  simpl. by destruct (on_reconnect_self env connection channel_number st)
    as [h ->].
Qed.

(** The closed flag, once set, stays set. *)
Lemma step_closed env st op :
  _closed (snd st) = true -> _closed (snd (step env st op)) = true.
Proof.
  destruct op; try (intros Hc; run_op st; done).
  simpl. by destruct (on_reconnect_self env connection channel_number st)
    as [h ->].
Qed.

(** Only [on_reconnect] replaces the closing signal. *)
Lemma step_closing env st op :
  match op with
  | OpOnReconnect _ _ =>
      _closing (snd (step env st op)) = length (futures (fst st))
  | _ => _closing (snd (step env st op)) = _closing (snd st)
  end.
Proof.
  destruct op; try (run_op st; done).
  simpl. by destruct (on_reconnect_self env connection channel_number st)
    as [h ->].
Qed.

Lemma insert_pending_lookup (h : list FutState) f v g s :
  h !! g = Some s ->
  h !! f = Some FutPending \/ h !! f = None ->
  exists s', <[f := v]> h !! g = Some s' /\ (done s = true -> s' = s).
Proof.
  intros Hg Hf. destruct (decide (g = f)) as [->|Hne].
  - destruct Hf as [Hf|Hf]; [|congruence].
    exists v. split; [|by intros; simplify_eq].
    apply list_lookup_insert_eq. by apply lookup_lt_Some in Hg.
  - exists s. by rewrite list_lookup_insert_ne.
Qed.

(** No operation removes a future or changes one that is resolved. *)
Lemma step_heap env st op g s :
  futures (fst st) !! g = Some s ->
  exists s',
    futures (fst (step env st op)) !! g = Some s' /\
    (done s = true -> s' = s).
Proof.
  intros Hg. destruct op.
  - simpl. destruct (on_reconnect_lookup env connection channel_number st g s Hg)
      as (s' & Hs' & [->|(-> & _)]); eauto. by exists s'.
  - run_op st; eauto.
  - run_op st; eauto.
  - run_op st; eauto; by apply insert_pending_lookup; auto.
  - run_op st; eauto.
  - run_op st; eauto.
  - run_op st; eauto.
  - run_op st; eauto.
  - run_op st; exists s; (split; [|done]); rewrite lookup_app_l; try done;
      by apply lookup_lt_Some in Hg.
Qed.

Lemma step_resolved env st op g :
  resolved (futures (fst st)) g -> resolved (futures (fst (step env st op))) g.
Proof.
  intros (s & Hs & Hd).
  destruct (step_heap env st op g s Hs) as (s' & Hs' & Heq).
  exists s'. split; [done|]. by rewrite Heq.
Qed.

(** The closing signal an [on_reconnect] replaces is resolved afterwards. *)
Lemma on_reconnect_resolves env connection number st :
  is_Some (futures (fst st) !! _closing (snd st)) ->
  resolved (futures (fst (snd (on_reconnect env connection number st))))
    (_closing (snd st)).
Proof.
  intros [s Hs].
  destruct (on_reconnect_lookup env connection number st _ s Hs)
    as (s' & Hs' & Hcase).
  destruct (on_reconnect_spec env connection number st)
    as (evs & h & _ & _ & Hfut & _).
  rewrite Hfut, swapped_futures in Hs'.
  destruct (closing_rejected_lookup st _ s Hs) as (s1 & H1 & Hs1).
  assert (done s1 = true) as Hd1.
  { unfold closing_rejected in H1. rewrite Hs in H1.
    destruct (done s) eqn:Hd.
    - rewrite Hs in H1. by simplify_eq.
    - rewrite list_lookup_insert_eq in H1
        by (by apply lookup_lt_Some in Hs). by simplify_eq. }
  destruct (reject_all_lookup reconnect_error
              (pending_in (_futures (snd st)) (fst st))
              (closing_rejected st ++ [FutPending]) (_closing (snd st)) s1)
    as (s2 & Hs2 & Hcase2).
  { rewrite lookup_app_l; [done|]. by apply lookup_lt_Some in H1. }
  rewrite Hfut, swapped_futures. exists s2. split; [done|].
  destruct Hcase2 as [->|(-> & _)]; done.
Qed.

(** The current closing signal is always a future of the heap. *)
Lemma step_closing_valid env st op :
  is_Some (futures (fst st) !! _closing (snd st)) ->
  is_Some (futures (fst (step env st op)) !! _closing (snd (step env st op))).
Proof.
  intros [s Hs]. pose proof (step_closing env st op) as Hc.
  destruct op; cbv iota in Hc;
    try (rewrite Hc;
         match goal with
         | |- is_Some (futures (fst (step env st ?op)) !! _) =>
             destruct (step_heap env st op _ s Hs) as (s' & Hs' & _);
             rewrite Hs'; by eauto
         end).
  rewrite Hc. simpl.
  destruct (on_reconnect_spec env connection channel_number st)
    as (evs & h & _ & _ & -> & _).
  rewrite swapped_futures. apply lookup_lt_is_Some.
  rewrite reject_all_length, length_app, closing_rejected_length. simpl. lia.
Qed.

(** ** Runs *)

Lemma run_cons env op ops st :
  run env (op :: ops) st = run env ops (step env st op).
Proof. reflexivity. Qed.

Lemma run_registry env ops st :
  _futures (snd (run env ops st)) = _futures (snd st).
Proof.
  revert st. induction ops as [|op ops IH]; intros st; [done|].
  by rewrite run_cons, IH, step_registry.
Qed.


Lemma run_resolved env ops st g :
  resolved (futures (fst st)) g ->
  resolved (futures (fst (run env ops st))) g.
Proof.
  revert st. induction ops as [|op ops IH]; intros st Hr; [done|].
  rewrite run_cons. by apply IH, step_resolved.
Qed.

Lemma closing_history_head env ops st :
  In (_closing (snd st)) (closing_history env ops st).
Proof. destruct ops; by left. Qed.

(** Along a run, a closing signal that is no longer the current one is
    resolved. *)
Lemma closing_history_live env ops st f :
  is_Some (futures (fst st) !! _closing (snd st)) ->
  In f (closing_history env ops st) ->
  f = _closing (snd (run env ops st)) \/
  resolved (futures (fst (run env ops st))) f.
Proof.
  revert st. induction ops as [|op ops IH]; intros st Hvalid Hin.
  - destruct Hin as [<-|[]]. by left.
  - rewrite run_cons. pose proof (step_closing_valid env st op Hvalid) as Hv.
    destruct Hin as [<-|Hin]; [|by apply IH].
    pose proof (step_closing env st op) as Hc.
    destruct op; cbv iota in Hc;
      try (apply IH; [done|]; rewrite <- Hc; apply closing_history_head).
    right. apply run_resolved. simpl. by apply on_reconnect_resolves.
Qed.

(** C7.  [on_reconnect] resolves the current closing signal, with the
    connection-lost error when it was unresolved, and puts a new future in
    its place: the first calls it makes are the rejection (if the signal
    was unresolved), the allocation, and only then the bulk failure; the
    new connection and channel number are adopted.  Along any run of
    operations every closing signal the channel has held is the current one
    or is resolved, so at most one is live and none is left dangling. *)
Theorem closing_signal_swap env connection number st ops :
  is_Some (futures (fst st) !! _closing (snd st)) ->
  let st' := snd (on_reconnect env connection number st) in
  resolved (futures (fst st')) (_closing (snd st)) /\
  (futures (fst st) !! _closing (snd st) = Some FutPending ->
   futures (fst st') !! _closing (snd st)
     = Some (FutException reconnect_error)) /\
  _closing (snd st') = length (futures (fst st)) /\
  futures (fst st) !! _closing (snd st') = None /\
  (~ In (_closing (snd st')) (pending_in (_futures (snd st)) (fst st)) ->
   futures (fst st') !! _closing (snd st') = Some FutPending) /\
  (exists rest, new_events st st' = swap_events st ++ rest) /\
  _connection (snd st') = connection /\
  _channel_number (snd st') = Some number /\
  (forall f,
      In f (closing_history env ops st) ->
      f = _closing (snd (run env ops st)) \/
      resolved (futures (fst (run env ops st))) f).
Proof.
  intros Hvalid st'.
  destruct (on_reconnect_self env connection number st) as [h Hself].
  assert (_closing (snd st') = length (futures (fst st))) as Hnew
    by (subst st'; by rewrite Hself).
  pose proof (on_reconnect_resolves env connection number st Hvalid) as Hres.
  split; [done|]. split.
  { intros Hp.
    destruct (on_reconnect_lookup env connection number st _ _ Hp)
      as (s' & Hs' & [->|(_ & -> & _)]); [|done].
    destruct Hres as (s & Hs & Hd). fold st' in Hs. subst st'.
    rewrite Hs' in Hs. by simplify_eq. }
  split; [done|]. split.
  { rewrite Hnew. by apply lookup_ge_None. }
  split.
  { rewrite Hnew. intros Hnot. subst st'.
    destruct (on_reconnect_spec env connection number st)
      as (evs & h' & _ & _ & -> & _).
    rewrite swapped_futures, reject_all_other by done.
    apply list_lookup_middle. by rewrite closing_rejected_length. }
  split.
  { subst st'.
    destruct (on_reconnect_spec env connection number st)
      as (evs & h' & _ & -> & _). by exists evs. }
  split; [subst st'; by rewrite Hself|].
  split; [subst st'; by rewrite Hself|].
  intros f. by apply closing_history_live.
Qed.

(** ** Closing *)

Lemma close_requests_app t1 t2 :
  close_requests (t1 ++ t2) = (close_requests t1 + close_requests t2)%nat.
Proof. unfold close_requests. by rewrite List.filter_app, length_app. Qed.

Lemma no_close_requests t :
  (forall e, In e t -> is_close_request e = false) -> close_requests t = 0%nat.
Proof.
  induction t as [|e t IH]; intros Hall; [done|].
  unfold close_requests in *. simpl.
  rewrite (Hall e) by (by left). apply IH. intros e' He'. apply Hall. by right.
Qed.

Lemma replay_run_kinds qos xs qs evs r e :
  replay_run qos xs qs evs r -> In e evs ->
  is_init_event e || is_exchange_hook e || is_queue_hook e = true.
Proof.
  intros Hrun Hin.
  inversion Hrun as [s0 Hs|s0 Hs|xe r0 Hr Hxe|xe qe r0 Hxe Hqe];
    subst; simpl in Hin.
  - by destruct Hin as [<-|[]].
  - by destruct Hin as [<-|[<-|[]]].
  - destruct Hin as [<-|[<-|Hin]]; [done..|].
    by destruct (exchange_hooks_only _ _ _ _ Hxe Hin) as (-> & -> & ->).
  - destruct Hin as [<-|[<-|Hin]]; [done..|].
    apply in_app_iff in Hin as [Hin|Hin].
    + by destruct (exchange_hooks_only _ _ _ _ Hxe Hin) as (-> & -> & ->).
    + by destruct (queue_hooks_only _ _ _ _ Hqe Hin) as (-> & -> & ->).
Qed.

Lemma on_reconnect_close_requests env connection number st :
  close_requests (trace (fst (snd (on_reconnect env connection number st))))
  = close_requests (trace (fst st)).
Proof.
  destruct (on_reconnect_spec env connection number st)
    as (evs & h & Hrun & _ & _ & _ & _ & ->).
  rewrite !close_requests_app.
  rewrite (no_close_requests (swap_events st)), (no_close_requests evs);
    [lia| |].
  - intros e He. pose proof (replay_run_kinds _ _ _ _ _ _ Hrun He).
    by destruct e.
  - intros e He. destruct (swap_events_no_init _ _ He) as (? & ? & ?).
    unfold swap_events in He. apply in_app_iff in He as [He|He].
    + destruct (futures (fst st) !! _closing (snd st)) as [[]|];
        simpl in He; try done; by destruct He as [<-|[]].
    + simpl in He. by destruct He as [<-|[<-|[]]].
Qed.

(** Once the closed flag is set no operation sends a close request. *)
Lemma step_close_requests env st op :
  _closed (snd st) = true ->
  close_requests (trace (fst (step env st op)))
  = close_requests (trace (fst st)).
Proof.
  intros Hc. destruct op;
    try (run_op st; rewrite ?close_requests_app; unfold close_requests;
         simpl; lia).
  apply on_reconnect_close_requests.
Qed.






(** ** The closed flag and the replay *)

(** A loop of hooks does not look at the channel's attributes. *)
Lemma for_each_self {A} (ask : list Event -> A -> Outcome unit)
    (ev : A -> Status -> Event) (xs : list A) (w : World)
    (c c' : RobustChannel) :
  for_each xs (fun x => await (fun t => ask t x) (ev x)) (w, c') =
  (fst (for_each xs (fun x => await (fun t => ask t x) (ev x)) (w, c)),
   (fst (snd (for_each xs (fun x => await (fun t => ask t x) (ev x)) (w, c))),
    c')).
Proof.
  revert w. set (f := fun x => await (fun t => ask t x) (ev x)).
  induction xs as [|x xs IH]; intros w; simpl; [done|].
  unfold bind.
  assert (forall c0, f x (w, c0) =
            (ask (trace w) x,
             (emit (ev x (status_of (ask (trace w) x))) w, c0)))
    as Hf by done.
  rewrite !Hf. destruct (ask (trace w) x); simpl; [apply IH | done | done].
Qed.

Lemma exchange_loop_self env xs w c c' :
  for_each xs (exchange_hook env) (w, c') =
  (fst (for_each xs (exchange_hook env) (w, c)),
   (fst (snd (for_each xs (exchange_hook env) (w, c))), c')).
Proof.
  apply (for_each_self (exchange_on_reconnect env) EvExchangeOnReconnect).
Qed.

Lemma queue_loop_self env qs w c c' :
  for_each qs (queue_hook env) (w, c') =
  (fst (for_each qs (queue_hook env) (w, c)),
   (fst (snd (for_each qs (queue_hook env) (w, c))), c')).
Proof.
  apply (for_each_self (queue_on_reconnect env) EvQueueOnReconnect).
Qed.

Lemma bind_ignores_closed {A B} (m : M A) (k : A -> M B) :
  ignores_closed m -> (forall a, ignores_closed (k a)) ->
  ignores_closed (bind m k).
Proof.
  intros Hm Hk w c b. unfold bind. rewrite Hm.
  destruct (m (w, c)) as [[a| |] [w1 c1]]; simpl; [apply Hk | done | done].
Qed.

Lemma exchange_loop_ignores_closed env xs :
  ignores_closed (for_each xs (exchange_hook env)).
Proof.
  intros w c b. rewrite (exchange_loop_self env xs w c (with_closed b c)).
  destruct (exchange_loop env xs (w, c)) as (xe & _ & Hx).
  destruct (for_each xs (exchange_hook env) (w, c)) as [o [w1 c1]].
  simpl in Hx. by injection Hx as -> ->.
Qed.

Lemma queue_loop_ignores_closed env qs :
  ignores_closed (for_each qs (queue_hook env)).
Proof.
  intros w c b. rewrite (queue_loop_self env qs w c (with_closed b c)).
  destruct (queue_loop env qs (w, c)) as (qe & _ & Hq).
  destruct (for_each qs (queue_hook env) (w, c)) as [o [w1 c1]].
  simpl in Hq. by injection Hq as -> ->.
Qed.

Lemma initialize_ignores_closed env timeout :
  ignores_closed (initialize env timeout).
Proof.
  intros w c b.
  unfold initialize, super_initialize, set_qos, bind, await, self, gets,
    on_self, modify, ret; simpl.
  destruct (base_initialize env (trace w)) as [h| |]; simpl; [|done..].
  by destruct (base_set_qos env _ _ _ _) as [[]| |].
Qed.

(** [on_reconnect] on a channel whose closed flag is [b] does what it does
    on the same channel with any other value of the flag, and leaves the
    flag as it found it. *)
Lemma on_reconnect_ignores_closed env connection number :
  ignores_closed (on_reconnect env connection number).
Proof.
  intros w c b. rewrite !on_reconnect_unfold.
  change (swapped connection number (w, with_closed b c))
    with (fst (swapped connection number (w, c)),
          with_closed b (snd (swapped connection number (w, c)))).
  destruct (swapped connection number (w, c)) as [w0 c0].
  apply (bind_ignores_closed (initialize env None)).
  - apply initialize_ignores_closed.
  - intros _. apply (bind_ignores_closed (for_each _ (exchange_hook env))).
    + apply exchange_loop_ignores_closed.
    + intros _. apply queue_loop_ignores_closed.
Qed.

(** ** Two channels on one connection *)

Lemma lookup_snoc_length {A} (l : list A) (x y : A) :
  (l ++ [x; y]) !! length l = Some x /\
  (l ++ [x; y]) !! S (length l) = Some y.
Proof.
  split.
  - by apply list_lookup_middle.
  - rewrite lookup_app_r by lia.
    by replace (S (length l) - length l)%nat with 1%nat by lia.
Qed.

(** Two channels built on the root registry of one connection, one
    operation registered through each: the registries are the two newest,
    each tracking its own operation, and the futures are the two closing
    signals followed by the two operations. *)
Lemma two_channels conA conB numA numB root w :
  let stA := __init__ conA root numA w in
  let stB := __init__ conB root numB (fst stA) in
  let w1 := register_pending (_futures (snd stA)) (fst stB) in
  let w2 := register_pending (_futures (snd stB)) (snd w1) in
  _futures (snd stA) = length (registries w) /\
  _futures (snd stB) = S (length (registries w)) /\
  _closing (snd stA) = length (futures w) /\
  _closing (snd stB) = S (length (futures w)) /\
  fst w1 = S (S (length (futures w))) /\
  fst w2 = S (S (S (length (futures w)))) /\
  futures (snd w2) =
    futures w ++ [FutPending; FutPending; FutPending; FutPending] /\
  registries (snd w2) =
    registries w
    ++ [{| reg_parent := Some root; reg_members := [fst w1] |};
        {| reg_parent := Some root; reg_members := [fst w2] |}].
Proof.
  destruct w as [fs rs t]. simpl.
  rewrite !length_app. simpl.
  replace (length rs + 1)%nat with (S (length rs)) by lia.
  replace (length fs + 1 + 1)%nat with (S (S (length fs))) by lia.
  replace (length fs + 1)%nat with (S (length fs)) by lia.
  replace (S (S (length fs)) + 1)%nat with (S (S (S (length fs)))) by lia.
  repeat split; try done.
  - by rewrite <- !app_assoc.
  - rewrite <- !app_assoc. simpl.
    set (r0 := {| reg_parent := Some root; reg_members := [] |}).
    destruct (lookup_snoc_length rs r0 r0) as [-> _]. simpl.
    rewrite insert_app_r_alt by lia. rewrite Nat.sub_diag. simpl.
    match goal with
    | |- context [(rs ++ [?rA; r0]) !! S (length rs)] =>
        destruct (lookup_snoc_length rs rA r0) as [_ ->]
    end.
    rewrite insert_app_r_alt by lia.
    by replace (S (length rs) - length rs)%nat with 1%nat by lia.
Qed.

Lemma swapped_registries connection number st :
  registries (fst (swapped connection number st)) =
  match registries (fst st) !! _futures (snd st) with
  | Some r =>
      <[_futures (snd st) :=
          {| reg_parent := reg_parent r; reg_members := [] |}]>
        (registries (fst st))
  | None => registries (fst st)
  end.
Proof.
  destruct st as [w c]. unfold swapped, reject_all; simpl.
  destruct (futures w !! _closing c) as [s|]; [destruct (done s)|];
    simpl; by destruct (registries w !! _futures c).
Qed.

(** After [on_reconnect] the channel's own registry tracks nothing and
    every other registry tracks what it tracked. *)
Lemma on_reconnect_pending env connection number st reg :
  pending_in reg (fst (snd (on_reconnect env connection number st))) =
  if decide (reg = _futures (snd st)) then [] else pending_in reg (fst st).
Proof.
  destruct (on_reconnect_spec env connection number st)
    as (evs & h & _ & _ & _ & Hreg & _).
  unfold pending_in. rewrite Hreg, swapped_registries.
  destruct (decide (reg = _futures (snd st))) as [->|Hne].
  - destruct (registries (fst st) !! _futures (snd st)) as [r|] eqn:Hr.
    + rewrite list_lookup_insert_eq; [done|]. by apply lookup_lt_Some in Hr.
    + by rewrite Hr.
  - destruct (registries (fst st) !! _futures (snd st)) as [r|]; [|done].
    by rewrite list_lookup_insert_ne.
Qed.

(** [on_reconnect] fails every operation pending in the channel's own
    registry with the connection-lost error. *)
Lemma on_reconnect_rejects env connection number st f :
  In f (pending_in (_futures (snd st)) (fst st)) ->
  futures (fst st) !! f = Some FutPending ->
  futures (fst (snd (on_reconnect env connection number st))) !! f
  = Some (FutException reconnect_error).
Proof.
  intros Hin Hf.
  destruct (on_reconnect_spec env connection number st)
    as (evs & h & _ & _ & -> & _).
  rewrite swapped_futures.
  destruct (closing_rejected_lookup st f _ Hf)
    as (s1 & H1 & [->|(_ & _ & ->)]).
  - apply reject_all_member; [done|].
    rewrite lookup_app_l; [done|]. by apply lookup_lt_Some in H1.
  - destruct (reject_all_lookup reconnect_error
                (pending_in (_futures (snd st)) (fst st))
                (closing_rejected st ++ [FutPending]) f
                (FutException reconnect_error))
      as (s' & -> & [->|(? & _)]); [|done..].
    rewrite lookup_app_l; [done|]. by apply lookup_lt_Some in H1.
Qed.

(** It leaves every other future as it was. *)
Lemma on_reconnect_keeps env connection number st f s :
  futures (fst st) !! f = Some s ->
  f <> _closing (snd st) ->
  ~ In f (pending_in (_futures (snd st)) (fst st)) ->
  futures (fst (snd (on_reconnect env connection number st))) !! f = Some s.
Proof.
  intros Hf Hne Hnot.
  by destruct (on_reconnect_lookup env connection number st f s Hf)
    as (s' & -> & [->|(_ & _ & [?|?])]).
Qed.

(** C9.  Each channel takes, once and at construction, a child of the
    registry it is given, and keeps it through every operation.  For two
    channels built on one connection's root registry, each with one pending
    operation, [on_reconnect] on the first fails the first channel's
    operation with the connection-lost error and empties its registry; the
    second channel's operation, closing signal and registry are as they
    were.  In general [on_reconnect] changes no future other than the
    channel's closing signal and the operations pending in the channel's
    own registry. *)
Theorem rejection_is_scoped env connection number conA conB numA numB root w :
  let stA := __init__ conA root numA w in
  let stB := __init__ conB root numB (fst stA) in
  let a := snd stA in
  let b := snd stB in
  let w1 := register_pending (_futures a) (fst stB) in
  let w2 := register_pending (_futures b) (snd w1) in
  let fa := fst w1 in
  let fb := fst w2 in
  let st' := snd (on_reconnect env connection number (snd w2, a)) in
  _futures a <> _futures b /\
  registries (snd w2) !! _futures a
    = Some {| reg_parent := Some root; reg_members := [fa] |} /\
  registries (snd w2) !! _futures b
    = Some {| reg_parent := Some root; reg_members := [fb] |} /\
  futures (snd w2) !! fa = Some FutPending /\
  futures (snd w2) !! fb = Some FutPending /\
  futures (fst st') !! fa = Some (FutException reconnect_error) /\
  futures (fst st') !! fb = Some FutPending /\
  futures (fst st') !! _closing b = Some FutPending /\
  pending_in (_futures a) (fst st') = [] /\
  pending_in (_futures b) (fst st') = [fb] /\
  (forall ops st, _futures (snd (run env ops st)) = _futures (snd st)) /\
  (forall st f s,
      futures (fst st) !! f = Some s ->
      f <> _closing (snd st) ->
      ~ In f (pending_in (_futures (snd st)) (fst st)) ->
      futures (fst (snd (on_reconnect env connection number st))) !! f
      = Some s).
Proof.
  intros stA stB a b w1 w2 fa fb st'.
  destruct (two_channels conA conB numA numB root w)
    as (HrA & HrB & HcA & HcB & Hfa & Hfb & Hfut & Hreg).
  fold stA stB in HrA, HrB, HcA, HcB, Hfa, Hfb, Hfut, Hreg.
  fold a in HrA, HcA, Hfa, Hfb, Hfut, Hreg.
  fold b in HrB, HcB, Hfb, Hfut, Hreg.
  fold w1 in Hfa, Hfb, Hfut, Hreg. fold w2 in Hfb, Hfut, Hreg.
  fold fa in Hfa, Hreg. fold fb in Hfb, Hreg.
  destruct (lookup_snoc_length (registries w)
              {| reg_parent := Some root; reg_members := [fa] |}
              {| reg_parent := Some root; reg_members := [fb] |})
    as [HlA HlB].
  rewrite <- Hreg, <- HrA in HlA. rewrite <- Hreg, <- HrB in HlB.
  assert (futures (snd w2) !! fa = Some FutPending) as Hpa.
  { rewrite Hfut, Hfa, lookup_app_r by lia.
    by replace (S (S (length (futures w))) - length (futures w))%nat
      with 2%nat by lia. }
  assert (futures (snd w2) !! fb = Some FutPending) as Hpb.
  { rewrite Hfut, Hfb, lookup_app_r by lia.
    by replace (S (S (S (length (futures w)))) - length (futures w))%nat
      with 3%nat by lia. }
  assert (futures (snd w2) !! _closing b = Some FutPending) as Hpc.
  { rewrite Hfut, HcB, lookup_app_r by lia.
    by replace (S (length (futures w)) - length (futures w))%nat
      with 1%nat by lia. }
  assert (pending_in (_futures a) (snd w2) = [fa]) as HmA
    by (unfold pending_in; by rewrite HlA).
  assert (pending_in (_futures b) (snd w2) = [fb]) as HmB
    by (unfold pending_in; by rewrite HlB).
  assert (_futures a <> _futures b) as Hne by lia.
  repeat split; try done.
  - subst st'. apply on_reconnect_rejects; cbn [fst snd]; [|done].
    rewrite HmA. by left.
  - subst st'. apply on_reconnect_keeps; cbn [fst snd]; [done|lia|].
    rewrite HmA. intros [?|[]]. lia.
  - subst st'. apply on_reconnect_keeps; cbn [fst snd]; [done|lia|].
    rewrite HmA. intros [?|[]]. lia.
  - subst st'. rewrite on_reconnect_pending. cbn [fst snd].
    by rewrite decide_True.
  - subst st'. rewrite on_reconnect_pending. cbn [fst snd].
    by rewrite decide_False by done.
  - intros ops st. apply run_registry.
  - intros st f s. apply on_reconnect_keeps.
Qed.

(** C10.  [on_reconnect] on a channel whose closed flag is set returns what
    it returns on the same channel with the flag clear, and leaves the same
    world and the same attributes but for the flag, which stays set.  So it
    still makes the calls of the swap, re-opens the handle, reapplies the
    QoS and calls the remembered hooks in order, adopts the new connection
    and channel number, puts a new closing signal in place and fails the
    operations pending in the channel's registry. *)
Theorem reconnect_ignores_closed env connection number w c :
  let closed := (w, with_closed true c) in
  let opened := (w, with_closed false c) in
  let res := on_reconnect env connection number closed in
  res = (fst (on_reconnect env connection number opened),
         (fst (snd (on_reconnect env connection number opened)),
          with_closed true
            (snd (snd (on_reconnect env connection number opened))))) /\
  _closed (snd (snd res)) = true /\
  (exists p,
      progress_ok (dict_values (_exchanges c)) (dict_values (_queues c)) p /\
      new_events closed (snd res) =
        swap_events closed
        ++ replay_trace (_qos c) (dict_values (_exchanges c))
             (dict_values (_queues c)) p /\
      fst res = progress_outcome p) /\
  _connection (snd (snd res)) = connection /\
  _channel_number (snd (snd res)) = Some number /\
  _closing (snd (snd res)) = length (futures w) /\
  (forall s,
      futures w !! _closing c = Some s ->
      resolved (futures (fst (snd res))) (_closing c)) /\
  (forall f,
      In f (pending_in (_futures c) w) ->
      futures w !! f = Some FutPending ->
      futures (fst (snd res)) !! f = Some (FutException reconnect_error)).
Proof.
  intros closed opened res.
  destruct (on_reconnect_self env connection number closed) as [h Hself].
  fold res in Hself.
  split.
  { apply (on_reconnect_ignores_closed env connection number w
             (with_closed false c) true). }
  split; [by rewrite Hself|].
  split; [apply (on_reconnect_progress env connection number closed)|].
  split; [by rewrite Hself|]. split; [by rewrite Hself|].
  split; [by rewrite Hself|]. split.
  - intros s Hs.
    apply (on_reconnect_resolves env connection number closed). by exists s.
  - intros f Hin Hf.
    by apply (on_reconnect_rejects env connection number closed).
Qed.

(** ** The theorems at work *)


Lemma closing_signal_swap_witness :
  is_Some (futures (fst new_channel) !! _closing (snd new_channel)) /\
  futures (fst (snd (on_reconnect calm 2 7 new_channel)))
    !! _closing (snd new_channel)
  = Some (FutException reconnect_error).
Proof.
  assert (is_Some (futures (fst new_channel) !! _closing (snd new_channel)))
    as Hvalid by (by exists FutPending).
  split; [exact Hvalid|].
  pose proof (closing_signal_swap calm 2 7 new_channel [] Hvalid)
    as (_ & Hrej & _).
  apply Hrej. reflexivity.
Defined.

Lemma reconnect_fails_fast_witness :
  exists failing,
    In failing
      (new_events busy_channel (snd (on_reconnect stormy 2 7 busy_channel))) /\
    event_status failing = Some (Failed (BrokerError 406)) /\
    fst (on_reconnect stormy 2 7 busy_channel) = Raise (BrokerError 406) /\
    last (hooks_called
            (new_events busy_channel
               (snd (on_reconnect stormy 2 7 busy_channel))))
    = hook_called failing.
Proof.
  set (failing :=
         EvQueueOnReconnect {| queue_id := 3; queue_name := "jobs"%string |}
           (Failed (BrokerError 406))).
  assert (In failing
            (new_events busy_channel
               (snd (on_reconnect stormy 2 7 busy_channel)))) as Hin.
  { vm_compute. tauto. }
  exists failing. split; [exact Hin|]. split; [reflexivity|].
  destruct (reconnect_fails_fast stormy 2 7 busy_channel failing
              (BrokerError 406) Hin eq_refl) as (Hraise & _ & _ & _ & Hlast).
  by split.
Defined.

(** * Further properties *)

(** ** Declaring and deleting, beyond the recovery set *)

(** X1.  Each of the four declare and delete methods ends the way the base
    class's call ended: it returns the very object or result the base class
    returned and lets its error through unchanged; and when that call did
    not return, the channel's attributes, the recovery maps among them, are
    what they were. *)
Theorem declare_and_delete_outcomes env st name qname xa xda qa qda robust :
  fst (declare_exchange env name xa robust st)
    = base_declare_exchange env (trace (fst st)) name xa /\
  fst (exchange_delete env name xda st)
    = base_exchange_delete env (trace (fst st)) name xda /\
  fst (declare_queue env qname qa robust st)
    = base_declare_queue env (trace (fst st)) qname qa /\
  fst (queue_delete env name qda st)
    = base_queue_delete env (trace (fst st)) name qda /\
  (returned (fst (declare_exchange env name xa robust st)) = false ->
   snd (snd (declare_exchange env name xa robust st)) = snd st) /\
  (returned (fst (exchange_delete env name xda st)) = false ->
   snd (snd (exchange_delete env name xda st)) = snd st) /\
  (returned (fst (declare_queue env qname qa robust st)) = false ->
   snd (snd (declare_queue env qname qa robust st)) = snd st) /\
  (returned (fst (queue_delete env name qda st)) = false ->
   snd (snd (queue_delete env name qda st)) = snd st).
Proof.
  destruct st as [w c].
  unfold declare_exchange, exchange_delete, declare_queue, queue_delete,
    bind, await, on_self, modify, ret; simpl.
  destruct (base_declare_exchange env (trace w) name xa);
    destruct (base_exchange_delete env (trace w) name xda);
    destruct (base_declare_queue env (trace w) qname qa);
    destruct (base_queue_delete env (trace w) name qda);
    destruct (negb (ex_internal xa) && robust), robust; simpl;
    repeat split; done.
Qed.

(** X2.  Exchanges and queues are remembered apart: declaring or deleting
    an exchange leaves the queue map as it was, declaring or deleting a
    queue leaves the exchange map as it was, so deleting an exchange does
    not forget a queue of the same name; and none of the four touches the
    QoS pair, the closed flag, the closing signal or the handle. *)
Theorem exchanges_and_queues_apart env st name qname xa xda qa qda robust :
  let stx := snd (declare_exchange env name xa robust st) in
  let stxd := snd (exchange_delete env name xda st) in
  let stq := snd (declare_queue env qname qa robust st) in
  let stqd := snd (queue_delete env name qda st) in
  _queues (snd stx) = _queues (snd st) /\
  _queues (snd stxd) = _queues (snd st) /\
  _exchanges (snd stq) = _exchanges (snd st) /\
  _exchanges (snd stqd) = _exchanges (snd st) /\
  Forall (fun st' : State =>
            _qos (snd st') = _qos (snd st) /\
            _closed (snd st') = _closed (snd st) /\
            _closing (snd st') = _closing (snd st) /\
            _channel (snd st') = _channel (snd st) /\
            futures (fst st') = futures (fst st))
    [stx; stxd; stq; stqd].
Proof.
  destruct st as [w c].
  unfold declare_exchange, exchange_delete, declare_queue, queue_delete,
    bind, await, on_self, modify, ret; simpl.
  destruct (base_declare_exchange env (trace w) name xa);
    destruct (base_exchange_delete env (trace w) name xda);
    destruct (base_declare_queue env (trace w) qname qa);
    destruct (base_queue_delete env (trace w) name qda);
    destruct (negb (ex_internal xa) && robust), robust; simpl;
    repeat split; repeat constructor; done.
Qed.

(** ** More on dictionaries *)

Section dict_order.
Context {K V : Type} `{EqDecision K}.
Implicit Types (k : K) (v : V) (d : list (K * V)).

Lemma dict_get_in k v d : dict_get k d = Some v -> In (k, v) d.
Proof.
  induction d as [|[k' v'] d IH]; simpl; [done|].
  destruct (decide (k = k')) as [->|]; [|by auto].
  intros [= ->]. by left.
Qed.

Lemma dict_get_none_keys k d : dict_get k d = None <-> ~ In k (dict_keys d).
Proof.
  induction d as [|[k' v'] d IH]; simpl; [tauto|].
  destruct (decide (k = k')) as [->|Hne].
  - split; [done|]. intros Hnot. destruct Hnot. by left.
  - rewrite IH. split; [|tauto]. intros Hnot [Heq|Hin]; [congruence|done].
Qed.

(** Assigning to a key that is absent adds the entry at the end. *)
Lemma dict_set_fresh k v d :
  dict_get k d = None -> dict_set k v d = d ++ [(k, v)].
Proof.
  induction d as [|[k' v'] d IH]; simpl; [done|].
  destruct (decide (k = k')); [done|]. intros Hd. by rewrite IH.
Qed.

(** Assigning to a key that is present replaces its entry where it is. *)
Lemma dict_set_present k v v0 d :
  dict_get k d = Some v0 ->
  exists i, d !! i = Some (k, v0) /\ dict_set k v d = <[i := (k, v)]> d.
Proof.
  induction d as [|[k' v'] d IH]; simpl; [done|].
  destruct (decide (k = k')) as [->|Hne].
  - intros [= ->]. by exists 0%nat.
  - intros Hd. destruct (IH Hd) as (i & Hi & Hset).
    exists (S i). simpl. by rewrite Hset.
Qed.

Lemma dict_pop_set k v d : dict_pop k (dict_set k v d) = dict_pop k d.
Proof.
  induction d as [|[k' v'] d IH]; simpl.
  - by rewrite decide_True.
  - destruct (decide (k = k')) as [->|Hne]; simpl.
    + by rewrite decide_True.
    + by rewrite decide_False, IH.
Qed.

Lemma dict_pop_fresh k d : dict_get k d = None -> dict_pop k d = d.
Proof.
  induction d as [|[k' v'] d IH]; simpl; [done|].
  destruct (decide (k = k')); [done|]. intros Hd. by rewrite IH.
Qed.

Lemma dict_keys_pop_in k k' d :
  In k' (dict_keys (dict_pop k d)) -> In k' (dict_keys d).
Proof.
  unfold dict_keys. rewrite !in_map_iff.
  intros ([k0 v0] & <- & Hin). apply in_dict_pop in Hin as [_ Hin].
  by exists (k0, v0).
Qed.

(** Keys stay unique. *)
Lemma dict_set_keys k v d :
  dict_keys (dict_set k v d) =
  match dict_get k d with
  | Some _ => dict_keys d
  | None => dict_keys d ++ [k]
  end.
Proof.
  induction d as [|[k' v'] d IH]; simpl; [done|].
  destruct (decide (k = k')) as [->|Hne]; simpl; [done|].
  rewrite IH. by destruct (dict_get k d).
Qed.

Lemma dict_set_nodup k v d :
  NoDup (dict_keys d) -> NoDup (dict_keys (dict_set k v d)).
Proof.
  intros Hd. rewrite dict_set_keys.
  destruct (dict_get k d) eqn:Hk; [done|].
  apply NoDup_app. split; [done|]. split; [|apply NoDup_singleton].
  intros k' Hin ->%list_elem_of_singleton.
  by apply dict_get_none_keys in Hk; apply Hk, list_elem_of_In.
Qed.

Lemma dict_pop_nodup k d :
  NoDup (dict_keys d) -> NoDup (dict_keys (dict_pop k d)).
Proof.
  induction d as [|[k' v'] d IH]; simpl; [done|].
  rewrite NoDup_cons, list_elem_of_In. intros [Hnot Hd].
  destruct (decide (k = k')); simpl; [by apply IH|].
  apply NoDup_cons. rewrite list_elem_of_In. split; [|by apply IH].
  intros Hin. by apply Hnot, (dict_keys_pop_in k).
Qed.
End dict_order.

(** ** Where a declaration lands in the replay order *)

(** X3.  A successful recoverable declaration under a name that is not
    remembered adds the entity at the end of its map, so its hook is the
    last of its kind in the next replay; under a name that is remembered it
    takes the place of the entity remembered before, which is then no
    longer in that place. *)
Theorem declare_position env name xa qname qa st x st1 q st2 :
  declare_exchange env name xa true st = (Ret x, st1) ->
  ex_internal xa = false ->
  declare_queue env qname qa true st = (Ret q, st2) ->
  match dict_get name (_exchanges (snd st)) with
  | None => _exchanges (snd st1) = _exchanges (snd st) ++ [(name, x)]
  | Some x0 =>
      exists i,
        _exchanges (snd st) !! i = Some (name, x0) /\
        _exchanges (snd st1) = <[i := (name, x)]> (_exchanges (snd st))
  end /\
  match dict_get qname (_queues (snd st)) with
  | None => _queues (snd st2) = _queues (snd st) ++ [(qname, q)]
  | Some q0 =>
      exists i,
        _queues (snd st) !! i = Some (qname, q0) /\
        _queues (snd st2) = <[i := (qname, q)]> (_queues (snd st))
  end.
Proof.
  intros Hx Hint Hq.
  apply declare_exchange_ret in Hx. apply declare_queue_ret in Hq.
  rewrite Hint in Hx. rewrite Hx, Hq. simpl. split.
  - destruct (dict_get name (_exchanges (snd st))) as [x0|] eqn:Hk.
    + by apply dict_set_present.
    + by apply dict_set_fresh.
  - destruct (dict_get qname (_queues (snd st))) as [q0|] eqn:Hk.
    + by apply dict_set_present.
    + by apply dict_set_fresh.
Qed.

Lemma declare_position_witness :
  exists x st1 q st2,
    declare_exchange calm "orders"%string plain_exchange true busy_channel
      = (Ret x, st1) /\
    declare_queue calm (Some "audit"%string) plain_queue true busy_channel
      = (Ret q, st2) /\
    _exchanges (snd st1) = [("orders"%string, x)] /\
    dict_values (_queues (snd st2))
      = dict_values (_queues (snd busy_channel)) ++ [q].
Proof.
  eexists _, _, _, _. split; [reflexivity|]. split; [reflexivity|].
  pose proof (declare_position calm "orders"%string plain_exchange
                (Some "audit"%string) plain_queue busy_channel _ _ _ _
                eq_refl eq_refl eq_refl) as [Hx Hq].
  simpl in Hx, Hq. destruct Hx as (i & Hi & Hx).
  split; [|exact (f_equal dict_values Hq)].
  etransitivity; [exact Hx|]. by destruct i as [|[|]].
Defined.

(** X4.  Declaring an entity and then deleting it by the name it was
    declared under leaves the recovery map as a deletion alone would have
    left it; the map is back to what it was when the name was not
    remembered before. *)
Theorem declare_then_delete env name xa robust xda qa qda st
    x st1 r1 st2 q st3 r2 st4 :
  declare_exchange env name xa robust st = (Ret x, st1) ->
  exchange_delete env name xda st1 = (Ret r1, st2) ->
  declare_queue env (Some name) qa robust st = (Ret q, st3) ->
  queue_delete env name qda st3 = (Ret r2, st4) ->
  _exchanges (snd st2) = dict_pop name (_exchanges (snd st)) /\
  (dict_get name (_exchanges (snd st)) = None ->
   _exchanges (snd st2) = _exchanges (snd st)) /\
  _queues (snd st4) = dict_pop (Some name) (_queues (snd st)) /\
  (dict_get (Some name) (_queues (snd st)) = None ->
   _queues (snd st4) = _queues (snd st)).
Proof.
  intros Hx Hxd Hq Hqd.
  apply declare_exchange_ret in Hx. apply exchange_delete_ret in Hxd.
  apply declare_queue_ret in Hq. apply queue_delete_ret in Hqd.
  assert (_exchanges (snd st2) = dict_pop name (_exchanges (snd st))) as Hex.
  { rewrite Hxd, Hx. simpl.
    destruct (negb (ex_internal xa) && robust); simpl; [|done].
    apply dict_pop_set. }
  assert (_queues (snd st4) = dict_pop (Some name) (_queues (snd st))) as Hqu.
  { rewrite Hqd, Hq. simpl. destruct robust; simpl; [|done].
    apply dict_pop_set. }
  repeat split; [done| |done|].
  - intros Hnone. by rewrite Hex, dict_pop_fresh.
  - intros Hnone. by rewrite Hqu, dict_pop_fresh.
Qed.

Lemma declare_then_delete_witness :
  exists x st1 r1 st2 q st3 r2 st4,
    declare_exchange calm "audit"%string plain_exchange true busy_channel
      = (Ret x, st1) /\
    exchange_delete calm "audit"%string plain_exchange_delete st1
      = (Ret r1, st2) /\
    declare_queue calm (Some "audit"%string) plain_queue true busy_channel
      = (Ret q, st3) /\
    queue_delete calm "audit"%string plain_queue_delete st3 = (Ret r2, st4) /\
    _exchanges (snd st2) = _exchanges (snd busy_channel) /\
    _queues (snd st4) = _queues (snd busy_channel).
Proof.
  eexists _, _, _, _, _, _, _, _.
  do 4 (split; [reflexivity|]).
  pose proof (declare_then_delete calm "audit"%string plain_exchange true
                plain_exchange_delete plain_queue plain_queue_delete
                busy_channel _ _ _ _ _ _ _ _
                eq_refl eq_refl eq_refl eq_refl) as (_ & Hx & _ & Hq).
  split; [by apply Hx | by apply Hq].
Defined.

(** X5.  Queues declared without a name are all remembered under the one
    key [None]: a second such declaration takes the place of the first,
    adding no entry, and a [queue_delete], whatever name it is given,
    leaves that entry in the map. *)
Theorem server_named_queues env a1 a2 st q1 st1 q2 st2 name qda r st3 :
  declare_queue env None a1 true st = (Ret q1, st1) ->
  declare_queue env None a2 true st1 = (Ret q2, st2) ->
  queue_delete env name qda st2 = (Ret r, st3) ->
  dict_get None (_queues (snd st1)) = Some q1 /\
  dict_get None (_queues (snd st2)) = Some q2 /\
  (exists i,
      _queues (snd st1) !! i = Some (None, q1) /\
      _queues (snd st2) = <[i := (None, q2)]> (_queues (snd st1))) /\
  dict_get None (_queues (snd st3)) = Some q2.
Proof.
  intros H1 H2 H3.
  apply declare_queue_ret in H1. apply declare_queue_ret in H2.
  apply queue_delete_ret in H3.
  assert (dict_get None (_queues (snd st1)) = Some q1) as Hq1
    by (rewrite H1; apply dict_get_set_eq).
  split; [done|]. split; [rewrite H2; apply dict_get_set_eq|]. split.
  - rewrite H2. simpl. by apply dict_set_present.
  - rewrite H3, H2. simpl. rewrite dict_get_pop_ne by done.
    apply dict_get_set_eq.
Qed.

Lemma server_named_queues_witness :
  exists q1 st1 q2 st2 r st3,
    declare_queue calm None plain_queue true new_channel = (Ret q1, st1) /\
    declare_queue calm None plain_queue true st1 = (Ret q2, st2) /\
    queue_delete calm (queue_name q2) plain_queue_delete st2 = (Ret r, st3) /\
    q1 <> q2 /\
    _queues (snd st3) = [(None, q2)].
Proof.
  eexists _, _, _, _, _, _. do 3 (split; [reflexivity|]).
  pose proof (server_named_queues calm plain_queue plain_queue new_channel
                _ _ _ _ "amq.gen-1"%string plain_queue_delete _ _
                eq_refl eq_refl eq_refl) as (_ & _ & _ & H3).
  split; [done|]. reflexivity.
Defined.

(** ** The recovery maps along a run *)

(** What an operation can do to the recovery maps: nothing, an assignment
    or a pop. *)
Lemma step_maps env st op :
  (_exchanges (snd (step env st op)) = _exchanges (snd st) \/
   (exists k v, _exchanges (snd (step env st op))
                = dict_set k v (_exchanges (snd st))) \/
   (exists k, _exchanges (snd (step env st op))
              = dict_pop k (_exchanges (snd st)))) /\
  (_queues (snd (step env st op)) = _queues (snd st) \/
   (exists k v, _queues (snd (step env st op))
                = dict_set k v (_queues (snd st))) \/
   (exists k, _queues (snd (step env st op))
              = dict_pop k (_queues (snd st)))).
Proof.
  destruct op; try (run_op st; by eauto 10).
  simpl. destruct (on_reconnect_self env connection channel_number st)
    as [h ->]. by auto.
Qed.

Lemma step_maps_nodup env st op :
  NoDup (dict_keys (_exchanges (snd st))) /\
  NoDup (dict_keys (_queues (snd st))) ->
  NoDup (dict_keys (_exchanges (snd (step env st op)))) /\
  NoDup (dict_keys (_queues (snd (step env st op)))).
Proof.
  intros [Hx Hq].
  destruct (step_maps env st op)
    as [[->|[(k & v & ->)|(k & ->)]] [->|[(k' & v' & ->)|(k' & ->)]]];
    auto using dict_set_nodup, dict_pop_nodup.
Qed.

(** X6.  Along any run of operations on a channel, from its construction
    on, no name is remembered twice in either recovery map; the same holds
    from any state in which it holds. *)
Theorem recovery_names_unique env ops connection future_store number w :
  let st := run env ops (__init__ connection future_store number w) in
  NoDup (dict_keys (_exchanges (snd st))) /\
  NoDup (dict_keys (_queues (snd st))) /\
  (forall st0,
      NoDup (dict_keys (_exchanges (snd st0))) ->
      NoDup (dict_keys (_queues (snd st0))) ->
      NoDup (dict_keys (_exchanges (snd (run env ops st0)))) /\
      NoDup (dict_keys (_queues (snd (run env ops st0))))).
Proof.
  assert (forall st0,
             NoDup (dict_keys (_exchanges (snd st0))) /\
             NoDup (dict_keys (_queues (snd st0))) ->
             NoDup (dict_keys (_exchanges (snd (run env ops st0)))) /\
             NoDup (dict_keys (_queues (snd (run env ops st0))))) as Hrun.
  { induction ops as [|op ops IH]; intros st0 Hst0; [done|].
    rewrite run_cons. by apply IH, step_maps_nodup. }
  intros st.
  destruct (Hrun (__init__ connection future_store number w)) as [Hx Hq].
  { split; apply NoDup_nil_2. }
  split; [done|]. split; [done|]. intros st0 H1 H2. by apply Hrun.
Qed.

(** ** The QoS pair along a run *)

Lemma step_qos env st op :
  _qos (snd (step env st op)) =
  match op with
  | OpSetQos p q false _ => (p, q)
  | _ => _qos (snd st)
  end.
Proof.
  destruct op;
    try (run_op st; try done;
         match goal with c : RobustChannel |- _ => by destruct (_qos c) end).
  simpl. by destruct (on_reconnect_self env connection channel_number st)
    as [h ->].
Qed.

(** X7.  Along any run of operations the stored QoS pair is the pair of
    the last [set_qos] call that asked for one channel, and the pair the
    run started with when there was none: no other operation changes it,
    and a call with [all_channels] true does not count, whatever the base
    class answered to any of the calls. *)
Theorem qos_follows_requests env ops st :
  _qos (snd (run env ops st)) =
  default (_qos (snd st)) (last (accepted_qos ops)).
Proof.
  revert st. induction ops as [|op ops IH]; intros st; [done|].
  rewrite run_cons, IH, step_qos. unfold accepted_qos. simpl.
  destruct op as [| |p q [] t| | | | | |]; simpl; try done.
  rewrite last_cons. by destruct (last _).
Qed.

Lemma set_qos_calls_forwarded env l st :
  exists evs,
    trace (fst (run env (set_qos_calls l) st)) = trace (fst st) ++ evs /\
    qos_calls evs = l.
Proof.
  revert st. induction l as [|[[p q] t] l IH]; intros st.
  - exists []. by rewrite app_nil_r.
  - change (set_qos_calls ((p, q, t) :: l))
      with (OpSetQos p q false t :: set_qos_calls l).
    rewrite run_cons.
    destruct (IH (step env st (OpSetQos p q false t))) as (evs & -> & Hl).
    exists (EvSetQos p q t
              (status_of (base_set_qos env (trace (fst st)) p q t)) :: evs).
    split.
    + cbn [step]. rewrite set_qos_state. simpl. by rewrite <- app_assoc.
    + by rewrite <- Hl.
Qed.

(** X8.  Every [set_qos] call that asks for one channel is handed to the
    base class once, with the pair and the timeout it was given, in the
    order of the calls; a call that failed or stalled does not keep the
    later ones from being handed over. *)
Theorem set_qos_forwards_every_call env l st :
  qos_calls (new_events st (run env (set_qos_calls l) st)) = l /\
  qos_applied (new_events st (run env (set_qos_calls l) st)) = map fst l.
Proof.
  destruct (set_qos_calls_forwarded env l st) as (evs & Htr & Hl).
  rewrite (new_events_app _ _ _ Htr). split; [done|].
  rewrite <- Hl. clear. induction evs as [|e evs IH]; [done|].
  destruct e as [| | | | |p q t s| | | | | | | |]; try exact IH.
  change (qos_applied (EvSetQos p q t s :: evs))
    with ((p, q) :: qos_applied evs).
  by rewrite IH.
Qed.

(** ** [initialize] *)

Lemma initialize_self env timeout st :
  snd (snd (initialize env timeout st)) =
  with_channel
    (match base_initialize env (trace (fst st)) with
     | Ret h => Some h
     | _ => _channel (snd st)
     end) (snd st).
Proof.
  destruct st as [w c].
  unfold initialize, super_initialize, set_qos, bind, await, self, gets,
    on_self, modify, ret; simpl.
  destruct (base_initialize env (trace w)) as [h| |]; simpl;
    try (by destruct c).
  destruct (base_set_qos env _ _ _ _) as [[]| |]; simpl;
    by destruct c as [? ? ? ? ? ? ? ? []].
Qed.

(** X9.  [initialize] does not use its [timeout]: the base class's
    opening gets none and the QoS call gets [None].  It changes no
    attribute but the handle, which is the new one as soon as the base
    class opened it, also when the QoS call then fails; the QoS call is
    made with the stored pair if and only if the handle was opened; and
    when [initialize] returns, its result is what the base class
    returned. *)
Theorem initialize_contract env timeout st :
  let res := initialize env timeout st in
  let new := new_events st (snd res) in
  res = initialize env None st /\
  snd (snd res) =
    with_channel
      (match base_initialize env (trace (fst st)) with
       | Ret h => Some h
       | _ => _channel (snd st)
       end) (snd st) /\
  qos_calls new =
    (if opened new
     then [(fst (_qos (snd st)), snd (_qos (snd st)), None)] else []) /\
  (forall h, fst res = Ret h -> base_initialize env (trace (fst st)) = Ret h) /\
  (forall e,
      base_initialize env (trace (fst st)) = Raise e ->
      fst res = Raise e /\ new = [EvInitialize (Failed e)]).
Proof.
  intros res new. split; [done|]. split; [apply initialize_self|].
  subst res new. destruct st as [w c].
  unfold initialize, super_initialize, set_qos, bind, await, self, gets,
    on_self, modify, ret, new_events; simpl.
  destruct (base_initialize env (trace w)) as [h| |]; simpl.
  - destruct (base_set_qos env _ _ _ _) as [[]| |]; simpl;
      rewrite <- app_assoc, drop_app_length; simpl;
      (split; [done|]); (split; [|done]); by intros ? [= ->].
  - rewrite drop_app_length. split; [done|]. split; [done|].
    by intros ? [= <-].
  - rewrite drop_app_length. by repeat split.
Qed.

(** ** The attributes after [on_reconnect] *)

Lemma replay_self env (xs : list Exchange) (qs : list Queue) st :
  snd (snd ((initialize env None ;;
             for_each xs (exchange_hook env) ;;
             for_each qs (queue_hook env)) st)) =
  snd (snd (initialize env None st)).
Proof.
  unfold bind at 1.
  destruct (initialize env None st) as [[h| |] st1]; simpl; try done.
  unfold bind.
  destruct (exchange_loop env xs st1) as (evs1 & _ & H1).
  destruct (for_each xs (exchange_hook env) st1) as [[[]| |] st2];
    simpl in *; subst st2; try done.
  destruct (queue_loop env qs
              ({| futures := futures (fst st1);
                  registries := registries (fst st1);
                  trace := trace (fst st1) ++ evs1 |}, snd st1))
    as (evs2 & _ & H2).
  by rewrite H2.
Qed.

Lemma initialize_returned env timeout st :
  returned (fst (initialize env timeout st)) = true ->
  exists h, base_initialize env (trace (fst st)) = Ret h.
Proof.
  destruct st as [w c].
  unfold initialize, super_initialize, bind, await, self, gets,
    on_self, modify, ret; simpl.
  destruct (base_initialize env (trace w)) as [h| |]; simpl; try done.
  by exists h.
Qed.

Lemma replay_opened env (xs : list Exchange) (qs : list Queue) st :
  returned (fst ((initialize env None ;;
                  for_each xs (exchange_hook env) ;;
                  for_each qs (queue_hook env)) st)) = true ->
  exists h, base_initialize env (trace (fst st)) = Ret h.
Proof.
  pose proof (initialize_returned env None st) as Hini.
  unfold bind at 1.
  destruct (initialize env None st) as [[h| |] st1]; simpl in *; try done.
  intros _. by apply Hini.
Qed.

Lemma on_reconnect_attributes env connection number st :
  snd (snd (on_reconnect env connection number st)) =
  with_channel
    (match base_initialize env (trace (fst st) ++ swap_events st) with
     | Ret h => Some h
     | _ => _channel (snd st)
     end)
    (with_channel_number (Some number)
       (with_connection connection
          (with_closing (length (futures (fst st))) (snd st)))).
Proof.
  rewrite on_reconnect_unfold, replay_self, initialize_self.
  rewrite swapped_trace, swapped_self. by destruct st as [w []].
Qed.


(** X11.  When [on_reconnect] returns, the whole recovery state was
    replayed: the base class opened a handle, which the channel now holds,
    the stored QoS pair was applied once, the hook of every remembered
    exchange and then of every remembered queue was called, in map order,
    and every call completed. *)
Theorem on_reconnect_returns_after_full_replay env connection number st :
  let res := on_reconnect env connection number st in
  let new := new_events st (snd res) in
  returned (fst res) = true ->
  (exists h, base_initialize env (trace (fst st) ++ swap_events st) = Ret h /\
             _channel (snd (snd res)) = Some h) /\
  opened new = true /\
  qos_applied new = [_qos (snd st)] /\
  hooks_called new = replay_order (snd st) /\
  Forall (fun e => went_on e = true) new.
Proof.
  intros res new Hret. subst res new. split.
  - rewrite on_reconnect_unfold in Hret.
    apply replay_opened in Hret as [h Hh]. rewrite swapped_trace in Hh.
    exists h. split; [done|].
    rewrite on_reconnect_attributes, Hh. by destruct st as [w []].
  - destruct (on_reconnect_progress env connection number st)
      as (p & Hok & Hnew & Hout).
    rewrite Hout in Hret. rewrite Hnew.
    destruct p as [s|s|i s|j s|]; simpl in Hret, Hok;
      [by destruct s|by destruct s|by destruct Hok, s|by destruct Hok, s|].
    cbn [replay_trace].
    destruct (swap_events_qos st) as [Hq Ho].
    destruct (completed_hooks_no_init EvExchangeOnReconnect
                (dict_values (_exchanges (snd st)))) as [Hxq _]; [done|].
    destruct (completed_hooks_no_init EvQueueOnReconnect
                (dict_values (_queues (snd st)))) as [Hqq _]; [done|].
    rewrite opened_app, !qos_applied_app, !hooks_called_app, Hq, Ho, Hxq, Hqq.
    rewrite hooks_called_swap, hooks_called_exchanges, hooks_called_queues.
    split; [done|]. split; [by destruct (_qos (snd st))|]. split; [done|].
    apply Forall_app. split; [apply swap_events_went_on|].
    apply Forall_app. split; [by repeat constructor|].
    apply Forall_app. split; by apply completed_hooks_went_on.
Qed.

Lemma on_reconnect_returns_after_full_replay_witness :
  returned (fst (on_reconnect calm 2 7 busy_channel)) = true /\
  hooks_called
    (new_events busy_channel (snd (on_reconnect calm 2 7 busy_channel)))
  = replay_order (snd busy_channel).
Proof.
  assert (returned (fst (on_reconnect calm 2 7 busy_channel)) = true)
    as Hret by reflexivity.
  split; [exact Hret|].
  by destruct (on_reconnect_returns_after_full_replay calm 2 7 busy_channel
                 Hret) as (_ & _ & _ & Hhooks & _).
Defined.

(** ** [close] *)

(** X12.  On a channel that is not marked closed and that the base class's
    guard lets through, [close] sets the closed flag before anything can
    fail, so the flag is set whatever the outcome.  Without a handle it
    raises the attribute error of the missing handle and calls nothing;
    with a handle it sends that handle exactly one close request.  The
    handle is cleared only when [close] returns: while the wait for the
    closing signal fails or is still in flight the channel keeps it. *)
Theorem close_marks_closed_first env st :
  _closed (snd st) = false ->
  ensure_channel_is_open env st = None ->
  let res := close env st in
  _closed (snd (snd res)) = true /\
  close_requests (trace (fst (snd res))) =
    (close_requests (trace (fst st))
     + (if _channel (snd st) is Some _ then 1 else 0))%nat /\
  (_channel (snd st) = None ->
   (exists msg, fst res = Raise (AttributeError msg)) /\
   new_events st (snd res) = []) /\
  (forall h, _channel (snd st) = Some h ->
             exists evs, new_events st (snd res) = EvHandleClose h :: evs) /\
  _channel (snd (snd res)) =
    (if returned (fst res) then None else _channel (snd st)).
Proof.
  intros Hc Hg res. subst res. destruct st as [w c]. simpl in *.
  unfold close, close_body, await_closing, new_events, bind, await, self,
    gets, on_self, on_world, modify, raise, ret; simpl.
  rewrite Hg, Hc; simpl.
  destruct (_channel c) as [h|] eqn:Hh; simpl.
  - destruct (futures w !! _closing c) as [[| | |]|]; simpl;
      try (destruct (closing_resolution env _ _) as [[]| |]; simpl);
      rewrite ?Hh; simpl;
      rewrite <- ?app_assoc, ?drop_app_length, ?close_requests_app;
      (split; [done|]); (split; [unfold close_requests; simpl; lia|]);
      (split; [done|]); (split; [|done]); intros ? [= <-]; by eexists.
  - rewrite Hh, drop_all, Nat.add_0_r.
    split; [done|]. split; [done|]. split; [|done]. intros _.
    split; [by eexists|done].
Qed.

Lemma close_marks_closed_first_witness :
  _closed (snd open_channel) = false /\
  ensure_channel_is_open calm open_channel = None /\
  _closed (snd (snd (close calm open_channel))) = true.
Proof.
  split; [reflexivity|]. split; [reflexivity|].
  apply (close_marks_closed_first calm open_channel eq_refl eq_refl).
Defined.

Lemma step_close_budget env st op :
  _closed (snd st) = false ->
  (close_requests (trace (fst (step env st op)))
   <= close_requests (trace (fst st)) + 1)%nat /\
  (_closed (snd (step env st op)) = false ->
   close_requests (trace (fst (step env st op)))
   = close_requests (trace (fst st))).
Proof.
  intros Hc. destruct op;
    try (run_op st; rewrite ?close_requests_app; unfold close_requests;
         simpl; (split; [lia|]); intros; (done || lia)).
  simpl. rewrite on_reconnect_close_requests. split; [lia|done].
Qed.

(** X13.  Along any run of operations the channel sends at most one close
    request to an underlying handle, and none once it is marked closed:
    the handles that later reconnects open are never asked to close. *)
Theorem at_most_one_close_request env ops st :
  (close_requests (trace (fst (run env ops st)))
   <= close_requests (trace (fst st))
      + (if _closed (snd st) then 0 else 1))%nat.
Proof.
  revert st. induction ops as [|op ops IH]; intros st; [simpl; lia|].
  rewrite run_cons. specialize (IH (step env st op)).
  destruct (_closed (snd st)) eqn:Hc.
  - rewrite (step_closed _ _ _ Hc) in IH.
    rewrite step_close_requests in IH by done. lia.
  - destruct (step_close_budget env st op Hc) as [H1 H2].
    destruct (_closed (snd (step env st op))); [lia|].
    rewrite H2 in IH by done. lia.
Qed.

Lemma step_handle_closed env st op :
  _closed (snd st) = true ->
  is_Some (_channel (snd st)) ->
  is_Some (_channel (snd (step env st op))).
Proof.
  intros Hc Hh. destruct op; try (run_op st; done).
  simpl. rewrite on_reconnect_attributes.
  destruct (base_initialize env _); destruct st as [w []]; simpl in *; eauto.
Qed.

(** X14.  Once a channel that is marked closed has been re-opened by an
    [on_reconnect] that returned, it holds a handle whatever is called
    afterwards, further calls of [close] and further reconnects included,
    and no close request is ever sent to any of these handles. *)
Theorem reopened_handle_is_never_closed env connection number st ops :
  _closed (snd st) = true ->
  returned (fst (on_reconnect env connection number st)) = true ->
  let st' := run env ops (snd (on_reconnect env connection number st)) in
  is_Some (_channel (snd st')) /\
  _closed (snd st') = true /\
  close_requests (trace (fst st')) = close_requests (trace (fst st)).
Proof.
  intros Hc Hret st'. subst st'.
  assert (exists h,
             _channel (snd (snd (on_reconnect env connection number st)))
             = Some h) as [h Hh].
  { rewrite on_reconnect_unfold in Hret.
    apply replay_opened in Hret as [h Hh]. rewrite swapped_trace in Hh.
    exists h. rewrite on_reconnect_attributes, Hh. by destruct st as [w []]. }
  assert (_closed (snd (snd (on_reconnect env connection number st))) = true)
    as Hc'.
  { rewrite on_reconnect_attributes. by destruct st as [w []]. }
  pose proof (on_reconnect_close_requests env connection number st) as Hreq.
  revert Hh Hc' Hreq.
  generalize (snd (on_reconnect env connection number st)). clear Hret.
  intros st'. revert st' h.
  induction ops as [|op ops IH]; intros st' h Hh Hc' Hreq.
  - change (run env [] st') with st'. by rewrite Hh.
  - rewrite run_cons.
    destruct (step_handle_closed env st' op Hc') as [h' Hh'];
      [by rewrite Hh|].
    apply (IH _ h' Hh'); [by apply step_closed|].
    by rewrite step_close_requests.
Qed.

Lemma reopened_handle_is_never_closed_witness :
  _closed (snd (snd (close calm open_channel))) = true /\
  returned (fst (on_reconnect calm 2 7 (snd (close calm open_channel))))
  = true /\
  is_Some (_channel (snd (run calm [OpClose; OpClose]
             (snd (on_reconnect calm 2 7 (snd (close calm open_channel))))))).
Proof.
  split; [reflexivity|]. split; [reflexivity|].
  apply (reopened_handle_is_never_closed calm 2 7
           (snd (close calm open_channel)) [OpClose; OpClose]
           eq_refl eq_refl).
Defined.

(** ** What a deletion forgets *)

(** X15.  A successful [exchange_delete] or [queue_delete] pops the name
    from the recovery map, whether or not it is a key, and leaves the other
    entries as they were; every recovery hook the next [on_reconnect] calls
    belongs to an entity remembered under another key, so an entity that was
    remembered under the deleted name alone is not replayed. *)
Theorem deletion_wins env name xa qa st r1 st1 r2 st2 connection number :
  exchange_delete env name xa st = (Ret r1, st1) ->
  queue_delete env name qa st = (Ret r2, st2) ->
  _exchanges (snd st1) = dict_pop name (_exchanges (snd st)) /\
  _queues (snd st2) = dict_pop (Some name) (_queues (snd st)) /\
  dict_get name (_exchanges (snd st1)) = None /\
  dict_get (Some name) (_queues (snd st2)) = None /\
  (forall x s,
      In (EvExchangeOnReconnect x s)
        (new_events st1 (snd (on_reconnect env connection number st1))) ->
      exists k, k <> name /\ In (k, x) (_exchanges (snd st))) /\
  (forall q s,
      In (EvQueueOnReconnect q s)
        (new_events st2 (snd (on_reconnect env connection number st2))) ->
      exists k, k <> Some name /\ In (k, q) (_queues (snd st))).
Proof.
  intros Hx Hq.
  apply exchange_delete_ret in Hx. apply queue_delete_ret in Hq.
  split; [by rewrite Hx|]. split; [by rewrite Hq|].
  split; [rewrite Hx; apply dict_get_pop_eq|].
  split; [rewrite Hq; apply dict_get_pop_eq|]. split.
  - intros x s Hin. apply on_reconnect_exchange_hook in Hin.
    rewrite Hx in Hin. simpl in Hin.
    apply in_dict_values in Hin as (k & Hin).
    apply in_dict_pop in Hin. by exists k.
  - intros q s Hin. apply on_reconnect_queue_hook in Hin.
    rewrite Hq in Hin. simpl in Hin.
    apply in_dict_values in Hin as (k & Hin).
    apply in_dict_pop in Hin. by exists k.
Qed.

Lemma deletion_wins_witness :
  exists r1 st1 r2 st2,
    exchange_delete calm "orders"%string plain_exchange_delete busy_channel
      = (Ret r1, st1) /\
    queue_delete calm "jobs"%string plain_queue_delete busy_channel
      = (Ret r2, st2) /\
    dict_get "orders"%string (_exchanges (snd st1)) = None /\
    dict_get (Some "jobs"%string) (_queues (snd st2)) = None.
Proof.
  eexists _, _, _, _. split; [reflexivity|]. split; [reflexivity|].
  pose proof (deletion_wins calm "orders"%string plain_exchange_delete
                plain_queue_delete busy_channel _ _ 0%nat
                (snd (queue_delete calm "orders"%string plain_queue_delete
                        busy_channel)) 2%nat 7 eq_refl eq_refl)
    as (_ & _ & Hx & _).
  pose proof (deletion_wins calm "jobs"%string plain_exchange_delete
                plain_queue_delete busy_channel 0%nat
                (snd (exchange_delete calm "jobs"%string plain_exchange_delete
                        busy_channel)) _ _ 2%nat 7 eq_refl eq_refl)
    as (_ & _ & _ & Hq & _).
  split; [exact Hx | exact Hq].
Defined.

(** ** The QoS pair across a reconnect *)

(** What [initialize] adds to the trace: the opening of the handle and,
    when the base class returned one, the QoS call with the stored pair,
    asked of the base class right after the opening. *)
Lemma initialize_trace env timeout st :
  trace (fst (snd (initialize env timeout st))) =
  trace (fst st) ++
    match base_initialize env (trace (fst st)) with
    | Ret _ =>
        [EvInitialize Completed;
         EvSetQos (fst (_qos (snd st))) (snd (_qos (snd st))) None
           (status_of
              (base_set_qos env (trace (fst st) ++ [EvInitialize Completed])
                 (fst (_qos (snd st))) (snd (_qos (snd st))) None))]
    | r => [EvInitialize (status_of r)]
    end.
Proof.
  destruct st as [w c].
  unfold initialize, super_initialize, set_qos, bind, await, self, gets,
    on_self, modify, ret; simpl.
  destruct (base_initialize env (trace w)) as [h| |]; simpl; try done.
  destruct (base_set_qos env _ _ _ _) as [[]| |]; simpl;
    by rewrite <- app_assoc.
Qed.

(** The replay loops add hook calls only, and none when [initialize] did
    not return. *)
Lemma replay_hooks_trace env (xs : list Exchange) (qs : list Queue) st :
  exists hooks,
    (forall e, In e hooks -> is_init_event e = false) /\
    (returned (fst (initialize env None st)) = false -> hooks = []) /\
    trace (fst (snd ((initialize env None ;;
                      for_each xs (exchange_hook env) ;;
                      for_each qs (queue_hook env)) st))) =
    trace (fst (snd (initialize env None st))) ++ hooks.
Proof.
  unfold bind at 1.
  destruct (initialize env None st) as [[h| |] st1]; simpl;
    [|exists []; by rewrite app_nil_r..].
  unfold bind.
  destruct (exchange_loop env xs st1) as (evs1 & Hrun1 & H1).
  destruct (for_each xs (exchange_hook env) st1) as [[[]| |] st2];
    simpl in *; subst st2; simpl.
  - destruct (queue_loop env qs
                ({| futures := futures (fst st1);
                    registries := registries (fst st1);
                    trace := trace (fst st1) ++ evs1 |}, snd st1))
      as (evs2 & Hrun2 & H2).
    exists (evs1 ++ evs2). rewrite H2. simpl. rewrite <- app_assoc.
    split; [|done]. intros ev [Hin|Hin]%in_app_iff.
    + by destruct (exchange_hooks_only _ _ _ _ Hrun1 Hin).
    + by destruct (queue_hooks_only _ _ _ _ Hrun2 Hin).
  - exists evs1. split; [|done]. intros ev Hin.
    by destruct (exchange_hooks_only _ _ _ _ Hrun1 Hin).
  - exists evs1. split; [|done]. intros ev Hin.
    by destruct (exchange_hooks_only _ _ _ _ Hrun1 Hin).
Qed.

(** The calls of one [on_reconnect], read off the answers of the base
    class: the swap, the opening of the handle, the QoS call with the
    stored pair when the handle was opened, then hooks only. *)
Lemma on_reconnect_trace env connection number st :
  exists hooks,
    (forall e, In e hooks -> is_init_event e = false) /\
    new_events st (snd (on_reconnect env connection number st)) =
    swap_events st ++
      match base_initialize env (trace (fst st) ++ swap_events st) with
      | Ret _ =>
          [EvInitialize Completed;
           EvSetQos (fst (_qos (snd st))) (snd (_qos (snd st))) None
             (status_of
                (base_set_qos env
                   ((trace (fst st) ++ swap_events st)
                    ++ [EvInitialize Completed])
                   (fst (_qos (snd st))) (snd (_qos (snd st))) None))]
          ++ hooks
      | r => [EvInitialize (status_of r)]
      end.
Proof.
  destruct (replay_hooks_trace env (dict_values (_exchanges (snd st)))
              (dict_values (_queues (snd st)))
              (swapped connection number st))
    as (hooks & Hhooks & Hnone & Htrace).
  exists hooks. split; [done|].
  apply new_events_app. rewrite on_reconnect_unfold, Htrace.
  rewrite initialize_trace, swapped_trace, swapped_self. simpl.
  pose proof (initialize_returned env None (swapped connection number st))
    as Hret.
  rewrite swapped_trace in Hret.
  destruct (base_initialize env (trace (fst st) ++ swap_events st))
    as [h| |] eqn:Hini; [by rewrite <- !app_assoc|..];
    (destruct (returned (fst (initialize env None
                                (swapped connection number st))));
     [by destruct (Hret eq_refl) as [? [=]]|]);
    by rewrite (Hnone eq_refl), app_nil_r, <- app_assoc.
Qed.

(** C3.  After any run of [set_qos(p, q)] calls on a new channel, whatever
    the base class answered to each, the stored pair is the last one asked
    for, [(0, 0)] when there was no call.  In the next [on_reconnect], as
    soon as the base class has opened the handle on the new connection, the
    very next call hands exactly that pair to the base class, and it is the
    only QoS call of the reconnect; when the handle could not be opened
    there is nothing to apply it to and no QoS call is made.  [set_qos]
    stores the pair whatever the outcome of the delegated call: returned,
    raised or still in flight. *)
Theorem qos_persistence env connection future_store number w l c n :
  let st :=
    run env (set_qos_calls l) (__init__ connection future_store number w) in
  let replay := new_events st (snd (on_reconnect env c n st)) in
  let before := trace (fst st) ++ swap_events st in
  let pair := last_requested l in
  _qos (snd st) = pair /\
  (exists hooks,
      qos_applied hooks = [] /\
      replay =
        swap_events st ++
          match base_initialize env before with
          | Ret _ =>
              [EvInitialize Completed;
               EvSetQos (fst pair) (snd pair) None
                 (status_of
                    (base_set_qos env (before ++ [EvInitialize Completed])
                       (fst pair) (snd pair) None))]
              ++ hooks
          | r => [EvInitialize (status_of r)]
          end) /\
  qos_applied replay =
    (if returned (base_initialize env before) then [pair] else []) /\
  opened replay = returned (base_initialize env before) /\
  _qos (snd (snd (on_reconnect env c n st))) = pair /\
  (forall p q timeout st0,
      _qos (snd (snd (set_qos env p q false timeout st0))) = (p, q) /\
      fst (set_qos env p q false timeout st0) =
        base_set_qos env (trace (fst st0)) p q timeout).
Proof.
  intros st replay before pair.
  assert (_qos (snd st) = pair) as Hqos.
  { subst st pair. by rewrite run_set_qos_calls. }
  destruct (on_reconnect_trace env c n st) as (hooks & Hhooks & Hreplay).
  destruct (no_init_events hooks Hhooks) as [Hq Ho].
  destruct (swap_events_qos st) as [Hsq Hso].
  fold replay before in Hreplay. rewrite Hqos in Hreplay.
  split; [done|]. split; [by exists hooks|].
  split; [|split; [|split; [|by intros; rewrite set_qos_state]]].
  - rewrite Hreplay, qos_applied_app, Hsq.
    destruct (base_initialize env before) as [h| |]; [|done..].
    rewrite qos_applied_app, Hq. by destruct pair.
  - rewrite Hreplay, opened_app, Hso.
    destruct (base_initialize env before) as [h| |]; [|done..].
    by rewrite opened_app, Ho.
  - rewrite <- Hqos. subst st.
    rewrite on_reconnect_attributes. by destruct (run _ _ _) as [? []].
Qed.
